(** * A variational autoencoder and its conditional generator

    Shallow embedding of the notebook [VariationalAutoencoders.ipynb]:
    the class [VariationalAutoEncoder] ([encode], [decode], [forward]),
    the loss computed in the body of [train], and [inference].

    Conventions of the embedding.
    - A 2-D tensor of shape (B, d) is the list of its B rows.  Floating
      point numbers are idealised as real numbers; the result of
      [torch.log], which is the one operation of the notebook that turns
      finite inputs into an infinity, lives in [num], a real or the mark
      [NonFinite] (an infinity or a NaN).
    - The ambient random generator is the sequence of the draws to come,
      threaded through the calls of [torch.randn_like].
    - [save_image] appends to a log, the output sink.
    - A Python exception ends the run with [Raise]; the generator and the
      sink keep what was drawn and written before it. *)

From Stdlib Require Import Reals Lra Lia ZArith Bool Arith String.
From Stdlib Require Import List Sorted.
Import ListNotations.

(* ===================================================================== *)
(** ** Exceptions and the two monads of the embedding                     *)
(* ===================================================================== *)

(** The exceptions the notebook's code can raise: [IndexError] from list
    subscripts, [RuntimeError] from tensor shape checks ([view], matrix
    product of a linear layer). *)
Inductive exn : Type :=
| IndexError
| RuntimeError.

Inductive result (A : Type) : Type :=
| Ok (a : A)
| Raise (e : exn).

Arguments Ok {A} a.
Arguments Raise {A} e.

Definition rbind {A B : Type} (c : result A) (k : A -> result B) : result B :=
  match c with
  | Ok a => k a
  | Raise e => Raise e
  end.

Declare Scope res_scope.
Delimit Scope res_scope with res.
Notation "x <- c ;; k" := (rbind c (fun x => k))
  (at level 61, c at next level, right associativity) : res_scope.
Notation "' pat <- c ;; k" := (rbind c (fun x => match x with pat => k end))
  (at level 61, pat pattern, c at next level, right associativity) : res_scope.

(** [for x in xs: body] collecting the values, stopping at the first
    exception. *)
Fixpoint rmap {A B : Type} (f : A -> result B) (xs : list A) : result (list B) :=
  match xs with
  | [] => Ok []
  | x :: xs' => (y <- f x ;; ys <- rmap f xs' ;; Ok (y :: ys))%res
  end.

(* ===================================================================== *)
(** ** Tensors                                                            *)
(* ===================================================================== *)

Abbreviation vec := (list R).
Abbreviation tensor := (list (list R)).

Fixpoint zip_with {A B C : Type} (f : A -> B -> C) (a : list A) (b : list B) : list C :=
  match a, b with
  | x :: a', y :: b' => f x y :: zip_with f a' b'
  | _, _ => []
  end.

(** Elementwise operations on tensors of one and the same shape. *)
Definition tmap {A B : Type} (f : A -> B) (t : list (list A)) : list (list B) :=
  map (map f) t.

Definition tzip {A B C : Type} (f : A -> B -> C)
  (a : list (list A)) (b : list (list B)) : list (list C) :=
  zip_with (zip_with f) a b.

Definition same_shape {A B : Type} (a : list (list A)) (b : list (list B)) : Prop :=
  map (@length A) a = map (@length B) b.

Definition tadd : tensor -> tensor -> tensor := tzip Rplus.
Definition tmul : tensor -> tensor -> tensor := tzip Rmult.

(** [t.pow(2)] *)
Definition pow2 (t : tensor) : tensor := tmap (fun x => x ^ 2)%R t.

(** [F.relu] / [nn.ReLU] *)
Definition relu (t : tensor) : tensor := tmap (Rmax 0) t.

(** [torch.sigmoid] *)
Definition sigmoid_R (x : R) : R := (1 / (1 + exp (- x)))%R.
Definition sigmoid (t : tensor) : tensor := tmap sigmoid_R t.

(** [t.view(rows, cols)] of a tensor given by its entries in row-major
    order, for [rows = 1]: it needs exactly [cols] entries. *)
Definition view_1 (cols : nat) (x : vec) : result tensor :=
  if Nat.eqb (length x) cols then Ok [x] else Raise RuntimeError.

(* ===================================================================== *)
(** ** [nn.Linear]                                                         *)
(* ===================================================================== *)

(** [nn.Linear(in_features, out_features)]: a weight of shape
    (out_features, in_features), given by its rows, and a bias of length
    out_features. *)
Record Linear : Type := {
  in_features : nat;
  out_features : nat;
  weight : list vec;
  bias : vec
}.

(** The shapes [nn.Linear(n_in, n_out)] builds, and every optimizer step
    keeps. *)
Definition Linear_shaped (n_in n_out : nat) (l : Linear) : bool :=
  Nat.eqb (in_features l) n_in && Nat.eqb (out_features l) n_out
  && Nat.eqb (length (weight l)) n_out
  && forallb (fun w => Nat.eqb (length w) n_in) (weight l)
  && Nat.eqb (length (bias l)) n_out.

Definition dot (x w : vec) : R := fold_right Rplus 0%R (zip_with Rmult x w).

(** One row of [x @ W.T + b]. *)
Definition affine (l : Linear) (x : vec) : vec :=
  zip_with (fun w b => (dot x w + b)%R) (weight l) (bias l).

(** Calling the layer on a batch: every row must have [in_features]
    entries, else the matrix product raises. *)
Definition Linear_call (l : Linear) (x : tensor) : result tensor :=
  if forallb (fun row => Nat.eqb (length row) (in_features l)) x
  then Ok (map (affine l) x)
  else Raise RuntimeError.

(* ===================================================================== *)
(** ** [class VariationalAutoEncoder]                                      *)
(* ===================================================================== *)

Record VariationalAutoEncoder : Type := {
  img_2hid : Linear;
  hid_2mu : Linear;
  hid_2sigma : Linear;
  z_2hid : Linear;
  hid_2img : Linear
}.

(** What [__init__(input_dim, h_dim, z_dim)] guarantees about the five
    layers. *)
Definition constructed (input_dim h_dim z_dim : nat) (m : VariationalAutoEncoder) : bool :=
  Linear_shaped input_dim h_dim (img_2hid m)
  && Linear_shaped h_dim z_dim (hid_2mu m)
  && Linear_shaped h_dim z_dim (hid_2sigma m)
  && Linear_shaped z_dim h_dim (z_2hid m)
  && Linear_shaped h_dim input_dim (hid_2img m).

(** [def encode(self, x)] *)
Definition encode (m : VariationalAutoEncoder) (x : tensor) : result (tensor * tensor) :=
  (h0 <- Linear_call (img_2hid m) x ;;
   let h := relu h0 in
   mu <- Linear_call (hid_2mu m) h ;;
   sigma <- Linear_call (hid_2sigma m) h ;;
   Ok (mu, sigma))%res.

(** [def decode(self, z)] *)
Definition decode (m : VariationalAutoEncoder) (z : tensor) : result tensor :=
  (h0 <- Linear_call (z_2hid m) z ;;
   let h := relu h0 in
   o <- Linear_call (hid_2img m) h ;;
   Ok (sigmoid o))%res.

(* ===================================================================== *)
(** ** The world: random generator and output sink                         *)
(* ===================================================================== *)

(** One call of [save_image(out, folder + f"/label_{label}_{example}.png")]. *)
Record saved : Type := {
  file_folder : string;
  file_label : Z;
  file_example : nat;
  file_image : list vec
}.

Record world : Type := {
  rng : nat -> R;       (* the standard-normal draws to come *)
  sink : list saved     (* the calls of save_image so far, oldest first *)
}.

Definition M (A : Type) : Type := world -> result A * world.

Definition mret {A : Type} (a : A) : M A := fun w => (Ok a, w).

Definition mbind {A B : Type} (c : M A) (k : A -> M B) : M B :=
  fun w =>
    match c w with
    | (Ok a, w') => k a w'
    | (Raise e, w') => (Raise e, w')
    end.

Definition lift {A : Type} (c : result A) : M A := fun w => (c, w).

Declare Scope m_scope.
Delimit Scope m_scope with M.
Notation "x <- c ;; k" := (mbind c (fun x => k))
  (at level 61, c at next level, right associativity) : m_scope.
Notation "' pat <- c ;; k" := (mbind c (fun x => match x with pat => k end))
  (at level 61, pat pattern, c at next level, right associativity) : m_scope.

(** [for x in xs: body] *)
Fixpoint for_each {A : Type} (xs : list A) (body : A -> M unit) : M unit :=
  match xs with
  | [] => mret tt
  | x :: xs' => (_ <- body x ;; for_each xs' body)%M
  end.

(** The next [n] draws, in order. *)
Definition draws (n : nat) (g : nat -> R) : vec := map g (seq 0 n).

Definition advance (n : nat) (g : nat -> R) : nat -> R := fun k => g (n + k)%nat.

(** [torch.randn_like(t)]: a tensor of the shape of [t], filled row by row
    with fresh draws. *)
Fixpoint fill_like (t : tensor) (g : nat -> R) : tensor * (nat -> R) :=
  match t with
  | [] => ([], g)
  | row :: t' =>
      let (rest, g') := fill_like t' (advance (length row) g) in
      (draws (length row) g :: rest, g')
  end.

Definition randn_like (t : tensor) : M tensor :=
  fun w =>
    let (eps, g') := fill_like t (rng w) in
    (Ok eps, {| rng := g'; sink := sink w |}).

Definition save_image (out : list vec) (folder : string) (label : Z) (example : nat) : M unit :=
  fun w =>
    (Ok tt,
     {| rng := rng w;
        sink := sink w ++ [ {| file_folder := folder; file_label := label;
                               file_example := example; file_image := out |} ] |}).

(** [def forward(self, x)] *)
Definition forward (m : VariationalAutoEncoder) (x : tensor) : M (tensor * tensor * tensor) :=
  ('(mu, sigma) <- lift (encode m x) ;;
   epsilon <- randn_like sigma ;;
   let z_reparametrized := tadd mu (tmul sigma epsilon) in
   x_reconstructed <- lift (decode m z_reparametrized) ;;
   mret (x_reconstructed, mu, sigma))%M.

(* ===================================================================== *)
(** ** The loss in the body of [train]                                     *)
(* ===================================================================== *)

(** A computed scalar: a finite value or an infinity/NaN. Once a value is
    not finite, sums, differences, products and negations of it are not
    finite either. *)
Inductive num : Type :=
| Finite (r : R)
| NonFinite.

Definition num_add (a b : num) : num :=
  match a, b with
  | Finite x, Finite y => Finite (x + y)
  | _, _ => NonFinite
  end.

Definition num_sub (a b : num) : num :=
  match a, b with
  | Finite x, Finite y => Finite (x - y)
  | _, _ => NonFinite
  end.

Definition num_mul (a b : num) : num :=
  match a, b with
  | Finite x, Finite y => Finite (x * y)
  | _, _ => NonFinite
  end.

Definition num_neg (a : num) : num :=
  match a with
  | Finite x => Finite (- x)
  | NonFinite => NonFinite
  end.

Definition is_finite (a : num) : Prop := exists r : R, a = Finite r.

(** The real a finite scalar stands for. *)
Definition value (a : num) : R :=
  match a with
  | Finite r => r
  | NonFinite => 0%R
  end.

(** A finite scalar that is at most 0. *)
Definition nonpos (a : num) : Prop := exists t, a = Finite t /\ (t <= 0)%R.

(** [torch.log] of one entry: minus infinity at 0, NaN below. *)
Definition torch_log (x : R) : num :=
  if Rlt_dec 0 x then Finite (ln x) else NonFinite.

Definition nsum (l : list num) : num := fold_right num_add (Finite 0) l.

(** [torch.sum(t)]: the sum of all the entries. *)
Definition torch_sum (t : list (list num)) : num := nsum (map nsum t).

(** [kl_div = -torch.sum(1 + torch.log(sigma.pow(2)) - mu.pow(2) - sigma.pow(2))] *)
Definition kl_div (mu sigma : tensor) : num :=
  num_neg
    (torch_sum
       (tzip num_sub
          (tzip num_sub
             (tmap (num_add (Finite 1)) (tmap torch_log (pow2 sigma)))
             (tmap Finite (pow2 mu)))
          (tmap Finite (pow2 sigma)))).

(** [loss = alpha*reconstruction_loss + (1-alpha)*kl_div] *)
Definition loss (alpha : R) (reconstruction_loss kl : num) : num :=
  num_add (num_mul (Finite alpha) reconstruction_loss)
          (num_mul (Finite (1 - alpha)) kl).

Definition INPUT_DIM : nat := 784.

(** [x.view(x.shape[0], INPUT_DIM)] of a batch given by its images, each
    by its entries in row-major order. *)
Definition view_batch (cols : nat) (x : list vec) : result tensor :=
  if forallb (fun img => Nat.eqb (length img) cols) x then Ok x else Raise RuntimeError.

(** The forward pass and the loss of one batch in [train] (the backward
    pass and the optimizer step belong to the tensor library). *)
Definition train_loss (m : VariationalAutoEncoder) (loss_fn : tensor -> tensor -> num)
  (alpha : R) (x : list vec) : M num :=
  (x <- lift (view_batch INPUT_DIM x) ;;
   '(x_reconstructed, mu, sigma) <- forward m x ;;
   let reconstruction_loss := loss_fn x_reconstructed x in
   mret (loss alpha reconstruction_loss (kl_div mu sigma)))%M.

(** The divergence term as the specification writes it: minus the sum,
    over the samples [b] and the latent dimensions [i], of
    [1 + log(spread^2) - mean^2 - spread^2]. *)
Definition kl_term (mean spread : R) : num :=
  num_sub (num_sub (num_add (Finite 1) (torch_log (spread ^ 2))) (Finite (mean ^ 2)))
          (Finite (spread ^ 2)).

Definition entry (t : tensor) (b i : nat) : R := nth i (nth b t []) 0%R.

Definition KL_closed_form (mu sigma : tensor) : num :=
  num_neg
    (nsum (map (fun b =>
                  nsum (map (fun i => kl_term (entry mu b i) (entry sigma b i))
                            (seq 0 (length (nth b mu [])))))
               (seq 0 (length mu)))).

(* ===================================================================== *)
(** ** [inference]                                                         *)
(* ===================================================================== *)

(** The scan [for x, y in dataset: ...] with its two variables [images]
    and [idx]; the loop leaves with [images]. *)
Fixpoint scan {X : Type} (dataset : list (X * Z)) (len_labels : nat)
  (images : list X) (idx : nat) : list X :=
  match dataset with
  | [] => images
  | (x, y) :: rest =>
      let '(images1, idx1) :=
        if Z.eqb y (Z.of_nat idx) then (images ++ [x], S idx) else (images, idx) in
      if Nat.eqb idx1 len_labels then images1
      else scan rest len_labels images1 idx1
  end.

(** [l[i]] for a Python list: negative subscripts count from the end. *)
Definition getitem {A : Type} (l : list A) (i : Z) : result A :=
  let n := Z.of_nat (length l) in
  let j := if Z.ltb i 0 then (i + n)%Z else i in
  if Z.leb 0 j && Z.ltb j n then
    match nth_error l (Z.to_nat j) with
    | Some a => Ok a
    | None => Raise IndexError
    end
  else Raise IndexError.

(** The entries of [l] cut into consecutive groups of [n]. *)
Fixpoint chunks (fuel n : nat) (l : vec) : list vec :=
  match fuel with
  | O => []
  | S fuel' =>
      match l with
      | [] => []
      | _ :: _ => firstn n l :: chunks fuel' n (skipn n l)
      end
  end.

(** [out.view(-1, 1, 28, 28)]: the entries regrouped into images of 784
    pixels; the count of entries must be a positive multiple of 784. *)
Definition view_28_28 (out : tensor) : result (list vec) :=
  let flat := concat out in
  if Nat.ltb 0 (length flat) && Nat.eqb (length flat mod 784) 0
  then Ok (chunks (length flat) 784 flat)
  else Raise RuntimeError.

(** The body of [for d in range(len_labels):], the value appended to
    [encodings_digit]. *)
Definition encode_exemplar (m : VariationalAutoEncoder) (images : list vec) (d : nat)
  : result (tensor * tensor) :=
  (x <- getitem images (Z.of_nat d) ;;
   v <- view_1 784 x ;;
   encode m v)%res.

(** The body of [for example in range(n_examples):]. *)
Definition generate_example (m : VariationalAutoEncoder) (folder : string) (label : Z)
  (mu sigma : tensor) (example : nat) : M unit :=
  (epsilon <- randn_like sigma ;;
   let z := tadd mu (tmul sigma epsilon) in
   out <- lift (decode m z) ;;
   out <- lift (view_28_28 out) ;;
   save_image out folder label example)%M.

(** The body of [for label in labels:]. *)
Definition inference_label (m : VariationalAutoEncoder) (len_labels : nat)
  (folder : string) (dataset : list (vec * Z)) (n_examples : nat) (label : Z) : M unit :=
  (let images := scan dataset len_labels [] 0%nat in
   encodings_digit <- lift (rmap (encode_exemplar m images) (seq 0 len_labels)) ;;
   '(mu, sigma) <- lift (getitem encodings_digit label) ;;
   for_each (seq 0 n_examples) (generate_example m folder label mu sigma))%M.

(** [def inference(model, labels, folder, dataset, n_examples=1)] *)
Definition inference (m : VariationalAutoEncoder) (labels : list Z) (folder : string)
  (dataset : list (vec * Z)) (n_examples : nat) : M unit :=
  let len_labels := length labels in
  for_each labels (inference_label m len_labels folder dataset n_examples).

(** The positions of the stream the scan retains: the scan run on the
    stream whose images are replaced by their positions. *)
Definition enumerate {X : Type} (start : nat) (dataset : list (X * Z)) : list (nat * Z) :=
  combine (seq start (length dataset)) (map snd dataset).

Definition scan_positions {X : Type} (dataset : list (X * Z)) (len_labels : nat) : list nat :=
  scan (enumerate 0 dataset) len_labels [] 0%nat.

(** The same on the labels alone, from any value of [idx]. *)
Definition positions_from (labels : list Z) (len_labels idx : nat) : list nat :=
  scan (combine (seq 0 (length labels)) labels) len_labels [] idx.

(** The first position at or after [start] whose label is [y]. *)
Fixpoint first_from (labels : list Z) (start : nat) (y : Z) : option nat :=
  match labels with
  | [] => None
  | y0 :: rest =>
      match start with
      | O => if Z.eqb y0 y then Some O else option_map S (first_from rest O y)
      | S start' => option_map S (first_from rest start' y)
      end
  end.

(** A chain for [n] labels: positions of the stream, strictly increasing,
    the [k]-th of which carries the label [k]. *)
Definition chain (labels : list Z) (n : nat) (ps : list nat) : Prop :=
  length ps = n
  /\ StronglySorted lt ps
  /\ forall k, (k < n)%nat -> nth_error labels (nth k ps O) = Some (Z.of_nat k).

(** The same for the labels [idx], [idx + 1], ..., [idx + count - 1]. *)
Definition chain_from (labels : list Z) (idx count : nat) (ps : list nat) : Prop :=
  length ps = count
  /\ StronglySorted lt ps
  /\ forall k, (k < count)%nat ->
                nth_error labels (nth k ps O) = Some (Z.of_nat (idx + k)).


(** The tags [(label, example)] of a list of written files. *)
Definition tags (files : list saved) : list (Z * nat) :=
  map (fun f => (file_label f, file_example f)) files.

(** A written file that holds images: at least one, each of 784 pixels
    of intensity in [0,1]. *)
Definition valid_file (f : saved) : Prop :=
  file_image f <> []
  /\ Forall (fun img => length img = 784%nat /\ Forall (fun y => 0 <= y <= 1)%R img)
            (file_image f).

(** The tags a run over [labels] is to write, in order. *)
Definition expected_tags (labels : list Z) (n_examples : nat) : list (Z * nat) :=
  flat_map (fun label => map (fun example => (label, example)) (seq 0 n_examples)) labels.

(** [written] begins [expected]. *)
Definition is_prefix_of (expected written : list (Z * nat)) : Prop :=
  exists rest, expected = written ++ rest.

(** What one turn of a loop does to the sink, whatever its outcome: it
    appends valid files whose tags begin the tags [T] of the turn, and are
    these tags when the turn ends without exception. *)
Definition appends (T : list (Z * nat)) (r : result unit) (w w' : world) : Prop :=
  exists new,
    sink w' = sink w ++ new
    /\ Forall valid_file new
    /\ is_prefix_of T (tags new)
    /\ (forall u, r = Ok u -> tags new = T).

(** The shape of an encoding of an exemplar: one row of [z_dim]
    entries for the mean and for the spread. *)
Definition exemplar_shaped (z_dim : nat) (enc : tensor * tensor) : Prop :=
  length (fst enc) = 1%nat /\ length (snd enc) = 1%nat
  /\ Forall (fun r => length r = z_dim) (fst enc)
  /\ Forall (fun r => length r = z_dim) (snd enc).

(** The image generated from the mean and the spread of an exemplar with
    the draws of [g] from number [offset] on: what [generate_example]
    hands to [save_image]. *)
Definition generated (m : VariationalAutoEncoder) (mu sigma : tensor)
  (g : nat -> R) (offset : nat) : result (list vec) :=
  (out <- decode m (tadd mu (tmul sigma (fst (fill_like sigma (advance offset g))))) ;;
   view_28_28 out)%res.

(* ===================================================================== *)
(** ** Small instances, to run the definitions on                          *)
(* ===================================================================== *)

(** A layer whose weights all are [w] and whose biases all are [b]. *)
Definition constant_layer (n_in n_out : nat) (w b : R) : Linear :=
  {| in_features := n_in; out_features := n_out;
     weight := repeat (repeat w n_in) n_out; bias := repeat b n_out |}.

(** A model as [VariationalAutoEncoder(input_dim, h_dim, z_dim)] shapes
    it. *)
Definition constant_model (input_dim h_dim z_dim : nat) : VariationalAutoEncoder :=
  {| img_2hid := constant_layer input_dim h_dim 0 0;
     hid_2mu := constant_layer h_dim z_dim 0 0;
     hid_2sigma := constant_layer h_dim z_dim 0 1;
     z_2hid := constant_layer z_dim h_dim 1 0;
     hid_2img := constant_layer h_dim input_dim 1 0 |}.

Definition tiny_model : VariationalAutoEncoder := constant_model 2 1 1.
Definition mnist_model : VariationalAutoEncoder := constant_model 784 1 1.

(** An image of 28 x 28 pixels, all of intensity [v]. *)
Definition flat_image (v : R) : vec := repeat v 784.

(** A world whose draws all are [v] and whose sink is empty. *)
Definition still_world (v : R) : world := {| rng := fun _ => v; sink := [] |}.

(* ===================================================================== *)
(** * Properties                                                           *)
(* ===================================================================== *)

(** ** Lists, tensors and shapes *)

Lemma zip_with_length {A B C : Type} (f : A -> B -> C) (a : list A) (b : list B) :
  length (zip_with f a b) = Nat.min (length a) (length b).
Proof.
  revert b; induction a as [|x a IH]; intros [|y b]; simpl; auto.
Qed.

Lemma zip_with_nth {A B C : Type} (f : A -> B -> C) (da : A) (db : B) (dc : C) :
  forall (a : list A) (b : list B) (i : nat),
    (i < length a)%nat -> (i < length b)%nat ->
    nth i (zip_with f a b) dc = f (nth i a da) (nth i b db).
Proof.
  induction a as [|x a IH]; intros [|y b] [|i] Ha Hb; simpl in *; try lia; auto.
  apply IH; lia.
Qed.

Lemma forallb_length_Forall {A : Type} (n : nat) (l : list (list A)) :
  forallb (fun r => Nat.eqb (length r) n) l = true <-> Forall (fun r => length r = n) l.
Proof.
  rewrite forallb_forall, Forall_forall.
  split; intros H r Hr; specialize (H r Hr); now apply Nat.eqb_eq.
Qed.

Lemma same_shape_rows {A B : Type} (n : nat) (a : list (list A)) (b : list (list B)) :
  length a = length b ->
  Forall (fun r => length r = n) a -> Forall (fun r => length r = n) b ->
  same_shape a b.
Proof.
  unfold same_shape. revert b; induction a as [|r a IH]; intros [|s b] Hl Ha Hb;
    simpl in *; try discriminate; auto.
  inversion Ha; inversion Hb; subst. f_equal; [congruence | apply IH; auto].
Qed.

Lemma same_shape_tzip {A B C : Type} (f : A -> B -> C) :
  forall (a : list (list A)) (b : list (list B)),
    same_shape a b -> same_shape (tzip f a b) a.
Proof.
  unfold same_shape, tzip.
  induction a as [|r a IH]; intros [|s b] H; simpl in *; try discriminate; auto.
  injection H as Hr Hab. f_equal; [|apply IH; auto].
  rewrite zip_with_length, Hr. apply Nat.min_id.
Qed.

Lemma same_shape_sym {A B : Type} (a : list (list A)) (b : list (list B)) :
  same_shape a b -> same_shape b a.
Proof. unfold same_shape; auto. Qed.

Lemma same_shape_trans {A B C : Type}
  (a : list (list A)) (b : list (list B)) (c : list (list C)) :
  same_shape a b -> same_shape b c -> same_shape a c.
Proof. unfold same_shape; congruence. Qed.

(** ** Linear layers *)

Lemma Linear_shaped_inv (n_in n_out : nat) (l : Linear) :
  Linear_shaped n_in n_out l = true ->
  in_features l = n_in /\ out_features l = n_out /\ length (weight l) = n_out
  /\ Forall (fun w => length w = n_in) (weight l) /\ length (bias l) = n_out.
Proof.
  unfold Linear_shaped. rewrite !andb_true_iff, !Nat.eqb_eq, forallb_length_Forall.
  tauto.
Qed.

Lemma affine_length (n_in n_out : nat) (l : Linear) (x : vec) :
  Linear_shaped n_in n_out l = true -> length (affine l x) = n_out.
Proof.
  intros H; apply Linear_shaped_inv in H as (_ & _ & Hw & _ & Hb).
  unfold affine. rewrite zip_with_length, Hw, Hb. apply Nat.min_id.
Qed.

(** A layer called on rows of the right length answers, one row of
    [out_features] entries for each. *)
Lemma Linear_call_ok (n_in n_out : nat) (l : Linear) (x : tensor) :
  Linear_shaped n_in n_out l = true ->
  Forall (fun r => length r = n_in) x ->
  Linear_call l x = Ok (map (affine l) x)
  /\ length (map (affine l) x) = length x
  /\ Forall (fun r => length r = n_out) (map (affine l) x).
Proof.
  intros Hl Hx. pose proof (Linear_shaped_inv _ _ _ Hl) as (Hin & _).
  unfold Linear_call. rewrite Hin.
  apply forallb_length_Forall in Hx as Hb. rewrite Hb.
  split; [reflexivity|]. split; [apply length_map|].
  apply Forall_forall; intros r Hr. apply in_map_iff in Hr as (x0 & <- & _).
  now apply affine_length with (n_in := n_in).
Qed.

Lemma Linear_call_inv (l : Linear) (x out : tensor) :
  Linear_call l x = Ok out -> out = map (affine l) x.
Proof.
  unfold Linear_call.
  destruct (forallb (fun row => Nat.eqb (length row) (in_features l)) x); congruence.
Qed.

Lemma tmap_rows {A B : Type} (f : A -> B) (n : nat) (t : list (list A)) :
  Forall (fun r => length r = n) t -> Forall (fun r => length r = n) (tmap f t).
Proof.
  unfold tmap; intros H. apply Forall_forall; intros r Hr.
  apply in_map_iff in Hr as (r0 & <- & Hr0). rewrite length_map.
  rewrite Forall_forall in H; auto.
Qed.

(** ** The decoder *)

Lemma sigmoid_R_range (x : R) : (0 < sigmoid_R x < 1)%R.
Proof.
  unfold sigmoid_R. pose proof (exp_pos (- x)) as He.
  split.
  - apply Rdiv_lt_0_compat; lra.
  - apply Rmult_lt_reg_r with (r := (1 + exp (- x))%R); [lra|].
    unfold Rdiv. rewrite Rmult_assoc, Rinv_l; lra.
Qed.

Lemma sigmoid_entries (t : tensor) :
  Forall (Forall (fun y => 0 <= y <= 1)%R) (sigmoid t).
Proof.
  unfold sigmoid, tmap. apply Forall_forall; intros r Hr.
  apply in_map_iff in Hr as (r0 & <- & _).
  apply Forall_forall; intros y Hy. apply in_map_iff in Hy as (y0 & <- & _).
  pose proof (sigmoid_R_range y0); lra.
Qed.

(** Whatever the parameters, what [decode] returns has its entries in
    [0,1]. *)
Lemma decode_entries (m : VariationalAutoEncoder) (z out : tensor) :
  decode m z = Ok out -> Forall (Forall (fun y => 0 <= y <= 1)%R) out.
Proof.
  unfold decode. destruct (Linear_call (z_2hid m) z) as [h0|]; simpl; [|discriminate].
  destruct (Linear_call (hid_2img m) (relu h0)) as [o|]; simpl; [|discriminate].
  intros [= <-]. apply sigmoid_entries.
Qed.

Lemma decode_ok (input_dim h_dim z_dim : nat) (m : VariationalAutoEncoder) (z : tensor) :
  constructed input_dim h_dim z_dim m = true ->
  Forall (fun c => length c = z_dim) z ->
  exists out, decode m z = Ok out /\ length out = length z
              /\ Forall (fun img => length img = input_dim) out.
Proof.
  unfold constructed; rewrite !andb_true_iff; intros ((((_ & _) & _) & Hz) & Hi) Hc.
  destruct (Linear_call_ok _ _ _ _ Hz Hc) as (E1 & L1 & R1).
  pose proof (tmap_rows (Rmax 0) _ _ R1) as R1'.
  destruct (Linear_call_ok _ _ _ _ Hi R1') as (E2 & L2 & R2).
  eexists. unfold decode. rewrite E1; simpl. unfold relu at 1. rewrite E2; simpl.
  split; [reflexivity|]. split.
  - unfold sigmoid, tmap, relu, tmap in *. rewrite !length_map in *. reflexivity.
  - apply tmap_rows, R2.
Qed.



(** ** The divergence term *)

Lemma torch_log_pos (x : R) : (0 < x)%R -> torch_log x = Finite (ln x).
Proof. intros H; unfold torch_log; destruct (Rlt_dec 0 x); [reflexivity | contradiction]. Qed.

Lemma torch_log_nonpos (x : R) : (x <= 0)%R -> torch_log x = NonFinite.
Proof. intros H; unfold torch_log; destruct (Rlt_dec 0 x); [lra | reflexivity]. Qed.

Lemma kl_term_nonzero (mean spread : R) :
  spread <> 0%R ->
  kl_term mean spread = Finite (1 + ln (spread ^ 2) - mean ^ 2 - spread ^ 2)%R.
Proof.
  intros H. unfold kl_term. rewrite torch_log_pos; [reflexivity|].
  simpl. nra.
Qed.

Lemma kl_term_zero (mean : R) : kl_term mean 0 = NonFinite.
Proof.
  unfold kl_term. rewrite torch_log_nonpos; [reflexivity|]. simpl; lra.
Qed.

Lemma kl_term_finite_iff (mean spread : R) :
  is_finite (kl_term mean spread) <-> spread <> 0%R.
Proof.
  split.
  - intros [r Hr] ->. rewrite kl_term_zero in Hr. discriminate.
  - intros H. rewrite kl_term_nonzero by assumption. eexists; reflexivity.
Qed.

(** The elementwise pipeline of [kl_div] on one row. *)
Lemma kl_row_pipeline : forall r s : vec,
  length r = length s ->
  zip_with num_sub
    (zip_with num_sub
       (map (num_add (Finite 1)) (map torch_log (map (fun x => x ^ 2)%R s)))
       (map Finite (map (fun x => x ^ 2)%R r)))
    (map Finite (map (fun x => x ^ 2)%R s))
  = zip_with kl_term r s.
Proof.
  induction r as [|m r IH]; intros [|v s] H; simpl in *; try discriminate; auto.
  f_equal. apply IH. now injection H.
Qed.

Lemma kl_pipeline : forall mu sigma : tensor,
  same_shape mu sigma ->
  tzip num_sub
    (tzip num_sub
       (tmap (num_add (Finite 1)) (tmap torch_log (pow2 sigma)))
       (tmap Finite (pow2 mu)))
    (tmap Finite (pow2 sigma))
  = tzip kl_term mu sigma.
Proof.
  unfold same_shape, tzip, tmap, pow2.
  induction mu as [|r mu IH]; intros [|s sigma] H; simpl in *; try discriminate; auto.
  injection H as Hr Hrest. f_equal; [apply kl_row_pipeline, Hr | apply IH, Hrest].
Qed.

Lemma kl_div_tzip (mu sigma : tensor) :
  same_shape mu sigma ->
  kl_div mu sigma = num_neg (torch_sum (tzip kl_term mu sigma)).
Proof. intros H. unfold kl_div. now rewrite kl_pipeline. Qed.

(** A [zip_with] read through the indices of its first list. *)
Lemma zip_with_seq {A B C : Type} (f : A -> B -> C) (da : A) (db : B) :
  forall (a : list A) (b : list B),
    length a = length b ->
    zip_with f a b = map (fun i => f (nth i a da) (nth i b db)) (seq 0 (length a)).
Proof.
  induction a as [|x a IH]; intros [|y b] H; simpl in *; try discriminate; auto.
  f_equal. rewrite <- seq_shift, map_map. apply IH. now injection H.
Qed.

Lemma same_shape_length {A B : Type} (a : list (list A)) (b : list (list B)) :
  same_shape a b -> length a = length b.
Proof.
  unfold same_shape; intros H.
  rewrite <- (length_map (@length A) a), H. apply length_map.
Qed.

Lemma same_shape_row {A B : Type} (a : list (list A)) (b : list (list B)) (i : nat) :
  same_shape a b -> length (nth i a []) = length (nth i b []).
Proof.
  unfold same_shape; intros H.
  rewrite <- (map_nth (@length A) a [] i), <- (map_nth (@length B) b [] i).
  simpl. now rewrite H.
Qed.

(** C1. For every batch of mean and spread vectors (two tensors of one
    shape, as [forward] returns them), the [kl_div] of the training loop
    is minus the sum, over all samples and all latent dimensions, of
    [1 + log(spread^2) - mean^2 - spread^2], with no factor in front. *)
Theorem kl_div_closed_form (mu sigma : tensor) :
  same_shape mu sigma ->
  kl_div mu sigma = KL_closed_form mu sigma.
Proof.
  intros H. rewrite kl_div_tzip by assumption.
  unfold KL_closed_form, torch_sum, tzip. f_equal. f_equal.
  rewrite (zip_with_seq (zip_with kl_term) [] [] mu sigma (same_shape_length _ _ H)).
  rewrite map_map. apply map_ext; intros b.
  unfold entry.
  now rewrite (zip_with_seq kl_term 0%R 0%R _ _ (same_shape_row _ _ b H)).
Qed.

Lemma kl_div_closed_form_witness :
  kl_div [[0%R; 2%R]] [[1%R; 3%R]] = KL_closed_form [[0%R; 2%R]] [[1%R; 3%R]].
Proof. apply (kl_div_closed_form [[0%R; 2%R]] [[1%R; 3%R]]). reflexivity. Defined.

(** A standard normal latent distribution has divergence 0. *)
Example kl_div_standard_normal :
  kl_div [[0%R; 0%R]] [[1%R; 1%R]] = Finite 0.
Proof.
  rewrite kl_div_tzip by reflexivity. unfold torch_sum, tzip, nsum. simpl.
  rewrite !kl_term_nonzero by lra. simpl. f_equal.
  replace (1 * (1 * 1))%R with 1%R by ring. rewrite ln_1. ring.
Qed.

(** ** When the loss is finite *)

Lemma nsum_finite_iff (l : list num) : is_finite (nsum l) <-> Forall is_finite l.
Proof.
  induction l as [|a l IH]; simpl.
  - split; [constructor | intros _; exists 0%R; reflexivity].
  - destruct a as [x|]; simpl.
    + destruct (nsum l) as [y|] eqn:E.
      * split.
        -- intros _. constructor; [exists x; reflexivity | apply IH; exists y; reflexivity].
        -- intros _. eexists; reflexivity.
      * split.
        -- intros [? Hr]; discriminate.
        -- intros Hf. inversion Hf as [|? ? _ Hl]; subst.
           apply IH in Hl as [? Hl]; discriminate.
    + split.
      * intros [? Hr]; discriminate.
      * intros Hf. inversion Hf as [|? ? [? Ha] _]; discriminate.
Qed.

Lemma num_neg_finite_iff (a : num) : is_finite (num_neg a) <-> is_finite a.
Proof.
  destruct a as [x|]; simpl; split; intros [y Hy]; try discriminate; eexists; reflexivity.
Qed.

Lemma kl_row_finite_iff : forall r s : vec,
  length r = length s ->
  (Forall is_finite (zip_with kl_term r s) <-> Forall (fun v => v <> 0%R) s).
Proof.
  induction r as [|m r IH]; intros [|v s] H; simpl in *; try discriminate.
  - split; constructor.
  - injection H as H. specialize (IH s H).
    split; intros Hf; inversion Hf; subst; constructor;
      try (now apply (kl_term_finite_iff m v)); now apply IH.
Qed.

Lemma kl_div_finite_iff : forall mu sigma : tensor,
  same_shape mu sigma ->
  (is_finite (kl_div mu sigma) <-> Forall (Forall (fun v => v <> 0%R)) sigma).
Proof.
  intros mu sigma H. rewrite kl_div_tzip by assumption.
  rewrite num_neg_finite_iff. unfold torch_sum. rewrite nsum_finite_iff.
  revert sigma H. unfold same_shape, tzip.
  induction mu as [|r mu IH]; intros [|s sigma] H; simpl in *; try discriminate.
  - split; constructor.
  - injection H as Hr Hrest. specialize (IH sigma Hrest).
    split; intros Hf; inversion Hf; subst; constructor; try (now apply IH).
    + apply (kl_row_finite_iff r s Hr), nsum_finite_iff; assumption.
    + apply nsum_finite_iff, (kl_row_finite_iff r s Hr); assumption.
Qed.





(** ** The mixing coefficient *)

Lemma loss_finite (alpha rec kl : R) :
  loss alpha (Finite rec) (Finite kl) = Finite (alpha * rec + (1 - alpha) * kl)%R.
Proof. reflexivity. Qed.

Lemma loss_value_alpha_1 (rec kl : R) : value (loss 1 (Finite rec) (Finite kl)) = rec.
Proof. simpl. lra. Qed.

(** C4. With finite terms the loss is
    [alpha * reconstruction_term + (1 - alpha) * divergence_term]. Its
    slope in the divergence term is [1 - alpha]. At [alpha = 1] the loss
    is the reconstruction term, whatever the divergence term; along any
    variation [t] of the parameters, on which the two terms depend as
    [rec t] and [kl t], the loss then has the derivatives of the
    reconstruction term and no others, so that no update sees the
    divergence term. A divergence term that is not finite is not gated. *)
Theorem loss_mixing (alpha : R) :
  (forall rec kl : R,
      loss alpha (Finite rec) (Finite kl) = Finite (alpha * rec + (1 - alpha) * kl)%R)
  /\ (forall rec kl0 : R,
         derivable_pt_lim (fun kl => value (loss alpha (Finite rec) (Finite kl))) kl0 (1 - alpha)%R)
  /\ (forall rec kl : R, loss 1 (Finite rec) (Finite kl) = Finite rec)
  /\ (forall (rec kl : R -> R) (t slope : R),
         derivable_pt_lim (fun t => value (loss 1 (Finite (rec t)) (Finite (kl t)))) t slope
         <-> derivable_pt_lim rec t slope)
  /\ (forall rec : R, loss 1 (Finite rec) NonFinite = NonFinite).
Proof.
  split; [intros; apply loss_finite|].
  split.
  { intros rec kl0 eps Heps. exists (mkposreal 1 Rlt_0_1). intros h Hh _. simpl.
    replace ((alpha * rec + (1 - alpha) * (kl0 + h) - (alpha * rec + (1 - alpha) * kl0)) / h
             - (1 - alpha))%R with 0%R by (field; assumption).
    rewrite Rabs_R0. assumption. }
  split; [intros rec kl; rewrite loss_finite; f_equal; lra|].
  split; [|reflexivity].
  intros rec kl t slope. unfold derivable_pt_lim.
  split; intros H eps Heps; destruct (H eps Heps) as [delta Hd]; exists delta;
    intros h Hh Hlt; specialize (Hd h Hh Hlt).
  - now rewrite !loss_value_alpha_1 in Hd.
  - now rewrite !loss_value_alpha_1.
Qed.

Lemma loss_mixing_witness :
  loss (1 / 2) (Finite 4) (Finite 2) = Finite (1 / 2 * 4 + (1 - 1 / 2) * 2)%R
  /\ loss 1 (Finite 4) (Finite 2) = Finite 4
  /\ loss 1 (Finite 4) NonFinite = NonFinite.
Proof.
  destruct (loss_mixing (1 / 2)) as (Hmix & _ & Hone & _ & Hnon).
  split; [apply Hmix|]. split; [apply Hone | apply Hnon].
Defined.

(** ** The random generator *)

Lemma fill_like_cons (row : vec) (t : tensor) (g : nat -> R) :
  fill_like (row :: t) g
  = (draws (length row) g :: fst (fill_like t (advance (length row) g)),
     snd (fill_like t (advance (length row) g))).
Proof. simpl. destruct (fill_like t (advance (length row) g)); reflexivity. Qed.

Lemma draws_length (n : nat) (g : nat -> R) : length (draws n g) = n.
Proof. unfold draws. now rewrite length_map, length_seq. Qed.

Lemma draws_nth (n : nat) (g : nat -> R) (i : nat) :
  (i < n)%nat -> nth i (draws n g) 0%R = g i.
Proof.
  intros H. unfold draws.
  rewrite (nth_indep _ 0%R (g 0%nat)) by now rewrite length_map, length_seq.
  rewrite map_nth, seq_nth by assumption. reflexivity.
Qed.

Lemma draws_ext (n : nat) (g1 g2 : nat -> R) :
  (forall k, (k < n)%nat -> g1 k = g2 k) -> draws n g1 = draws n g2.
Proof.
  intros H. unfold draws. apply map_ext_in; intros k Hk.
  apply in_seq in Hk. apply H; lia.
Qed.

(** The noise tensor has the shape of its argument. *)
Lemma fill_like_shape : forall (t : tensor) (g : nat -> R),
  same_shape (fst (fill_like t g)) t.
Proof.
  unfold same_shape. induction t as [|row t IH]; intros g; [reflexivity|].
  rewrite fill_like_cons; simpl. now rewrite draws_length, IH.
Qed.

(** It is made of the next draws and of no others. *)
Lemma fill_like_ext : forall (t : tensor) (g1 g2 : nat -> R),
  (forall k, (k < length (concat t))%nat -> g1 k = g2 k) ->
  fst (fill_like t g1) = fst (fill_like t g2).
Proof.
  induction t as [|row t IH]; intros g1 g2 H; [reflexivity|].
  rewrite !fill_like_cons; simpl in *. rewrite length_app in H. f_equal.
  - apply draws_ext; intros k Hk; apply H; lia.
  - apply IH; intros k Hk. unfold advance. apply H; lia.
Qed.

Lemma fill_like_rest : forall (t : tensor) (g : nat -> R) (k : nat),
  snd (fill_like t g) k = g (length (concat t) + k)%nat.
Proof.
  induction t as [|row t IH]; intros g k; [reflexivity|].
  rewrite fill_like_cons; simpl. rewrite IH, length_app. unfold advance.
  apply f_equal; lia.
Qed.

Lemma concat_length_rows (n : nat) (t : tensor) :
  Forall (fun r => length r = n) t -> length (concat t) = (length t * n)%nat.
Proof.
  induction 1 as [|r t Hr _ IH]; simpl; [reflexivity|].
  rewrite length_app, IH, Hr. reflexivity.
Qed.

(** Row [b], column [i] of the noise is draw number [b * n + i]. *)
Lemma fill_like_entry (n : nat) : forall (t : tensor) (g : nat -> R) (b i : nat),
  Forall (fun r => length r = n) t ->
  (b < length t)%nat -> (i < n)%nat ->
  entry (fst (fill_like t g)) b i = g (b * n + i)%nat.
Proof.
  unfold entry. induction t as [|row t IH]; intros g b i Ht Hb Hi; simpl in Hb; [lia|].
  inversion Ht as [|? ? Hrow Ht']; subst. rewrite fill_like_cons; simpl fst.
  destruct b as [|b].
  - simpl. now apply draws_nth.
  - cbn [nth]. rewrite IH by (assumption || lia). unfold advance. apply f_equal.
    rewrite Nat.mul_succ_l. lia.
Qed.

(** ** Elementwise sums and products *)

Lemma tzip_entry (f : R -> R -> R) : forall (a b : tensor) (i j : nat),
  same_shape a b ->
  (i < length a)%nat -> (j < length (nth i a []))%nat ->
  entry (tzip f a b) i j = f (entry a i j) (entry b i j).
Proof.
  intros a b i j H Hi Hj. unfold entry, tzip.
  pose proof (same_shape_length _ _ H) as Hl.
  pose proof (same_shape_row _ _ i H) as Hr.
  rewrite (zip_with_nth (zip_with f) [] [] []) by lia.
  apply zip_with_nth; lia.
Qed.

Lemma rows_nth {A : Type} (n : nat) (t : list (list A)) (i : nat) :
  Forall (fun r => length r = n) t -> (i < length t)%nat -> length (nth i t []) = n.
Proof.
  intros H Hi. rewrite Forall_forall in H. apply H, nth_In, Hi.
Qed.

Lemma rows_same_shape {A B : Type} (n : nat) (a : list (list A)) (b : list (list B)) :
  same_shape a b -> Forall (fun r => length r = n) b -> Forall (fun r => length r = n) a.
Proof.
  unfold same_shape. revert b; induction a as [|r a IH]; intros [|s b] H Hb;
    simpl in *; try discriminate; constructor; injection H as Hr Hrest;
    inversion Hb; subst.
  - congruence.
  - eapply IH; eauto.
Qed.


(** ** The forward pass *)

Lemma encode_shape (input_dim h_dim z_dim : nat) (m : VariationalAutoEncoder)
  (x mu sigma : tensor) :
  constructed input_dim h_dim z_dim m = true ->
  encode m x = Ok (mu, sigma) ->
  length mu = length x /\ length sigma = length x
  /\ Forall (fun r => length r = z_dim) mu
  /\ Forall (fun r => length r = z_dim) sigma.
Proof.
  unfold constructed; rewrite !andb_true_iff; intros ((((_ & Hmu) & Hsg) & _) & _).
  unfold encode.
  destruct (Linear_call (img_2hid m) x) as [h0|] eqn:E0; simpl; [|discriminate].
  destruct (Linear_call (hid_2mu m) (relu h0)) as [mu'|] eqn:E1; simpl; [|discriminate].
  destruct (Linear_call (hid_2sigma m) (relu h0)) as [sg'|] eqn:E2; simpl; [|discriminate].
  intros [= <- <-].
  apply Linear_call_inv in E0, E1, E2. subst.
  unfold relu, tmap. rewrite !length_map.
  repeat split; auto; apply Forall_forall; intros r Hr;
    apply in_map_iff in Hr as (r0 & <- & _); eapply affine_length; eassumption.
Qed.

Lemma encode_ok (input_dim h_dim z_dim : nat) (m : VariationalAutoEncoder) (x : tensor) :
  constructed input_dim h_dim z_dim m = true ->
  Forall (fun r => length r = input_dim) x ->
  exists mu sigma, encode m x = Ok (mu, sigma).
Proof.
  unfold constructed; rewrite !andb_true_iff; intros ((((Hh & Hmu) & Hsg) & _) & _) Hx.
  destruct (Linear_call_ok _ _ _ _ Hh Hx) as (E0 & _ & R0).
  pose proof (tmap_rows (Rmax 0) _ _ R0) as R0'.
  destruct (Linear_call_ok _ _ _ _ Hmu R0') as (E1 & _).
  destruct (Linear_call_ok _ _ _ _ Hsg R0') as (E2 & _).
  unfold encode. rewrite E0; simpl. unfold relu at 1 2. rewrite E1; simpl.
  rewrite E2; simpl. eauto.
Qed.

(** [forward] once [encode] has answered: the noise is drawn in the shape
    of [sigma], and [decode] runs on [mu + sigma * epsilon]. *)
Lemma forward_eq (m : VariationalAutoEncoder) (x mu sigma : tensor) (w : world) :
  encode m x = Ok (mu, sigma) ->
  forward m x w =
  let w' := {| rng := snd (fill_like sigma (rng w)); sink := sink w |} in
  match decode m (tadd mu (tmul sigma (fst (fill_like sigma (rng w))))) with
  | Ok x_reconstructed => (Ok (x_reconstructed, mu, sigma), w')
  | Raise e => (Raise e, w')
  end.
Proof.
  intros E. unfold forward, mbind, lift, randn_like, mret. rewrite E.
  destruct (fill_like sigma (rng w)) as [eps g']; simpl.
  destruct (decode m (tadd mu (tmul sigma eps))); reflexivity.
Qed.

Lemma forward_raise (m : VariationalAutoEncoder) (x : tensor) (e : exn) (w : world) :
  encode m x = Raise e -> forward m x w = (Raise e, w).
Proof. intros E. unfold forward, mbind, lift. now rewrite E. Qed.

Lemma reparametrized_shape (mu sigma epsilon : tensor) :
  same_shape mu sigma -> same_shape epsilon sigma ->
  same_shape (tadd mu (tmul sigma epsilon)) sigma.
Proof.
  intros Hm He. unfold tadd, tmul.
  pose proof (same_shape_tzip Rmult sigma epsilon (same_shape_sym _ _ He)) as H1.
  pose proof (same_shape_tzip Rplus mu _ (same_shape_trans _ _ _ Hm (same_shape_sym _ _ H1))) as H2.
  exact (same_shape_trans _ _ _ H2 Hm).
Qed.

Lemma reparametrized_entry (mu sigma epsilon : tensor) (b i : nat) :
  same_shape mu sigma -> same_shape epsilon sigma ->
  (b < length sigma)%nat -> (i < length (nth b sigma []))%nat ->
  entry (tadd mu (tmul sigma epsilon)) b i
  = (entry mu b i + entry sigma b i * entry epsilon b i)%R.
Proof.
  intros Hm He Hb Hi. unfold tadd, tmul.
  pose proof (same_shape_sym _ _ He) as He'.
  pose proof (same_shape_tzip Rmult sigma epsilon He') as H1.
  pose proof (same_shape_length _ _ Hm) as Lm.
  pose proof (same_shape_row _ _ b Hm) as Rm.
  rewrite tzip_entry.
  - f_equal. apply tzip_entry; auto.
  - exact (same_shape_trans _ _ _ Hm (same_shape_sym _ _ H1)).
  - lia.
  - lia.
Qed.

(** C3. On a batch [x] of images of length [input_dim], the forward pass
    of a model built by [__init__] returns [(decode z, mu, sigma)] where
    [(mu, sigma) = encode x] does not touch the generator, the noise
    [epsilon] holds one draw per sample and latent dimension, taken in
    order from the generator, and
    [z[b][i] = mu[b][i] + sigma[b][i] * epsilon[b][i]]; [decode] does not
    touch the generator either. The pass writes nothing and leaves the
    generator advanced by the draws of [epsilon]. *)
Theorem forward_reparametrized (input_dim h_dim z_dim : nat)
  (m : VariationalAutoEncoder) (x : tensor) (w : world) :
  constructed input_dim h_dim z_dim m = true ->
  Forall (fun r => length r = input_dim) x ->
  exists mu sigma epsilon z x_reconstructed,
    encode m x = Ok (mu, sigma)
    /\ length mu = length x /\ length sigma = length x
    /\ Forall (fun r => length r = z_dim) mu
    /\ Forall (fun r => length r = z_dim) sigma
    /\ same_shape epsilon sigma /\ same_shape z sigma
    /\ (forall b i, (b < length x)%nat -> (i < z_dim)%nat ->
                    entry epsilon b i = rng w (b * z_dim + i)%nat)
    /\ (forall b i, (b < length x)%nat -> (i < z_dim)%nat ->
                    entry z b i = (entry mu b i + entry sigma b i * entry epsilon b i)%R)
    /\ decode m z = Ok x_reconstructed
    /\ fst (forward m x w) = Ok (x_reconstructed, mu, sigma)
    /\ sink (snd (forward m x w)) = sink w
    /\ (forall k, rng (snd (forward m x w)) k = rng w (length x * z_dim + k)%nat).
Proof.
  intros Hm Hx.
  destruct (encode_ok _ _ _ _ _ Hm Hx) as (mu & sigma & E).
  destruct (encode_shape _ _ _ _ _ _ _ Hm E) as (Lmu & Lsg & Rmu & Rsg).
  assert (Sms : same_shape mu sigma)
    by (apply (same_shape_rows z_dim); auto; lia).
  set (epsilon := fst (fill_like sigma (rng w))).
  pose proof (fill_like_shape sigma (rng w)) as Se. fold epsilon in Se.
  set (z := tadd mu (tmul sigma epsilon)).
  pose proof (reparametrized_shape _ _ _ Sms Se) as Sz. fold z in Sz.
  pose proof (rows_same_shape z_dim _ _ Sz Rsg) as Rz.
  destruct (decode_ok _ _ _ _ _ Hm Rz) as (xr & D & _ & _).
  exists mu, sigma, epsilon, z, xr.
  rewrite (forward_eq _ _ _ _ w E). fold epsilon. fold z. rewrite D. simpl.
  repeat split; auto.
  - intros b i Hb Hi. unfold epsilon. apply fill_like_entry; auto. lia.
  - intros b i Hb Hi. unfold z. apply reparametrized_entry; auto; [lia|].
    rewrite (rows_nth z_dim) by (auto; lia). assumption.
  - intros k. rewrite fill_like_rest, (concat_length_rows z_dim) by assumption.
    now rewrite Lsg.
Qed.

Lemma forward_reparametrized_witness :
  exists mu sigma epsilon z x_reconstructed,
    encode tiny_model [[0%R; 0%R]] = Ok (mu, sigma)
    /\ length mu = 1%nat /\ length sigma = 1%nat
    /\ Forall (fun r => length r = 1%nat) mu
    /\ Forall (fun r => length r = 1%nat) sigma
    /\ same_shape epsilon sigma /\ same_shape z sigma
    /\ (forall b i, (b < 1)%nat -> (i < 1)%nat ->
                    entry epsilon b i = rng (still_world 3) (b * 1 + i)%nat)
    /\ (forall b i, (b < 1)%nat -> (i < 1)%nat ->
                    entry z b i = (entry mu b i + entry sigma b i * entry epsilon b i)%R)
    /\ decode tiny_model z = Ok x_reconstructed
    /\ fst (forward tiny_model [[0%R; 0%R]] (still_world 3)) = Ok (x_reconstructed, mu, sigma)
    /\ sink (snd (forward tiny_model [[0%R; 0%R]] (still_world 3))) = sink (still_world 3)
    /\ (forall k, rng (snd (forward tiny_model [[0%R; 0%R]] (still_world 3))) k
                  = rng (still_world 3) (1 * 1 + k)%nat).
Proof.
  apply (forward_reparametrized 2 1 1 tiny_model [[0%R; 0%R]] (still_world 3));
    [reflexivity | repeat constructor].
Defined.

(** C5. The forward pass of a model built by [__init__] is a function of
    the model, of the batch and of the draws it takes: in two worlds whose
    generators agree on the first [len(x) * z_dim] draws it returns the
    same reconstruction, means and spreads, or raises the same
    exception. *)
Theorem forward_deterministic (input_dim h_dim z_dim : nat)
  (m : VariationalAutoEncoder) (x : tensor) (w1 w2 : world) :
  constructed input_dim h_dim z_dim m = true ->
  (forall k, (k < length x * z_dim)%nat -> rng w1 k = rng w2 k) ->
  fst (forward m x w1) = fst (forward m x w2).
Proof.
  intros Hm Hg. destruct (encode m x) as [[mu sigma]|e] eqn:E.
  - destruct (encode_shape _ _ _ _ _ _ _ Hm E) as (_ & Lsg & _ & Rsg).
    rewrite !(forward_eq _ _ _ _ _ E).
    rewrite (fill_like_ext sigma (rng w1) (rng w2)).
    + destruct (decode m _); reflexivity.
    + rewrite (concat_length_rows z_dim), Lsg by assumption. exact Hg.
  - now rewrite !(forward_raise _ _ _ _ E).
Qed.

(** Two generators with the same first draw and different later ones. *)
Lemma forward_deterministic_witness :
  fst (forward tiny_model [[0%R; 0%R]]
         {| rng := fun k => match k with O => 1%R | S _ => 2%R end; sink := [] |})
  = fst (forward tiny_model [[0%R; 0%R]] (still_world 1)).
Proof.
  apply (forward_deterministic 2 1 1 tiny_model [[0%R; 0%R]]
           {| rng := fun k => match k with O => 1%R | S _ => 2%R end; sink := [] |}
           (still_world 1)).
  - reflexivity.
  - intros k Hk. simpl in Hk. destruct k as [|k]; [reflexivity | lia].
Defined.

(** ** The loss of a batch in [train] *)

Lemma forward_ok (input_dim h_dim z_dim : nat) (m : VariationalAutoEncoder)
  (x : tensor) (w : world) :
  constructed input_dim h_dim z_dim m = true ->
  Forall (fun r => length r = input_dim) x ->
  exists x_reconstructed mu sigma,
    same_shape mu sigma
    /\ fst (forward m x w) = Ok (x_reconstructed, mu, sigma).
Proof.
  intros Hm Hx.
  destruct (encode_ok _ _ _ _ _ Hm Hx) as (mu & sigma & E).
  destruct (encode_shape _ _ _ _ _ _ _ Hm E) as (Lmu & Lsg & Rmu & Rsg).
  assert (Sms : same_shape mu sigma) by (apply (same_shape_rows z_dim); auto; lia).
  pose proof (reparametrized_shape _ _ _ Sms (fill_like_shape sigma (rng w))) as Sz.
  destruct (decode_ok _ _ _ _ _ Hm (rows_same_shape z_dim _ _ Sz Rsg)) as (xr & D & _).
  exists xr, mu, sigma. split; [assumption|].
  rewrite (forward_eq _ _ _ _ w E). simpl. now rewrite D.
Qed.

(** On a batch of images of 784 entries and a model built for them, the
    pass of [train] evaluates the mixture of [loss_fn] and of [kl_div] on
    what [forward] returns, a mean and a spread tensor of one shape. *)
Lemma train_loss_ok (h_dim z_dim : nat) (m : VariationalAutoEncoder)
  (loss_fn : tensor -> tensor -> num) (alpha : R) (x : list vec) (w : world) :
  constructed INPUT_DIM h_dim z_dim m = true ->
  Forall (fun img => length img = INPUT_DIM) x ->
  exists x_reconstructed mu sigma,
    fst (forward m x w) = Ok (x_reconstructed, mu, sigma)
    /\ same_shape mu sigma
    /\ fst (train_loss m loss_fn alpha x w)
       = Ok (loss alpha (loss_fn x_reconstructed x) (kl_div mu sigma)).
Proof.
  intros Hm Hx.
  destruct (forward_ok _ _ _ m x w Hm Hx) as (xr & mu & sigma & Sms & F).
  exists xr, mu, sigma. split; [assumption|]. split; [assumption|].
  unfold train_loss, mbind at 1, lift, view_batch.
  apply forallb_length_Forall in Hx as Hb. rewrite Hb.
  unfold mbind. destruct (forward m x w) as [[[[xr' mu'] sigma']|e] w1];
    simpl in F; [|discriminate].
  now injection F as -> -> ->.
Qed.

(** ** The scan of the label stream *)

Section Scan.

Context {X : Type}.
Implicit Types (dataset : list (X * Z)) (images : list X).

(** What the scan has in hand stays in front of what it adds. *)
Lemma scan_app : forall dataset len_labels images idx,
  scan dataset len_labels images idx = images ++ scan dataset len_labels [] idx.
Proof.
  induction dataset as [|[x y] rest IH]; intros n images idx; cbn [scan].
  - now rewrite app_nil_r.
  - destruct (Z.eqb y (Z.of_nat idx)).
    + destruct (Nat.eqb (S idx) n); [reflexivity|].
      rewrite (IH n (images ++ [x])), (IH n [x]). now rewrite app_assoc.
    + destruct (Nat.eqb idx n); [now rewrite app_nil_r | apply IH].
Qed.

(** One turn of the loop. *)
Lemma scan_cons (x : X) (y : Z) dataset len_labels idx :
  scan ((x, y) :: dataset) len_labels [] idx =
  if Z.eqb y (Z.of_nat idx)
  then x :: (if Nat.eqb (S idx) len_labels then [] else scan dataset len_labels [] (S idx))
  else if Nat.eqb idx len_labels then [] else scan dataset len_labels [] idx.
Proof.
  cbn [scan app]. destruct (Z.eqb y (Z.of_nat idx)); [|reflexivity].
  destruct (Nat.eqb (S idx) len_labels); [reflexivity|].
  now rewrite scan_app.
Qed.

(** The scan looks at the labels only: it commutes with any change of the
    images. *)
Lemma scan_map {Y : Type} (f : X -> Y) : forall dataset len_labels images idx,
  scan (map (fun p => (f (fst p), snd p)) dataset) len_labels (map f images) idx
  = map f (scan dataset len_labels images idx).
Proof.
  induction dataset as [|[x y] rest IH]; intros n images idx;
    cbn [scan map fst snd]; [reflexivity|].
  destruct (Z.eqb y (Z.of_nat idx)).
  - destruct (Nat.eqb (S idx) n).
    + now rewrite map_app.
    + rewrite <- IH. now rewrite map_app.
  - destruct (Nat.eqb idx n); [reflexivity | apply IH].
Qed.

(** The scan never holds more than [len_labels] exemplars. *)
Lemma scan_length_le : forall dataset len_labels idx,
  (idx < len_labels)%nat ->
  (length (scan dataset len_labels [] idx) <= len_labels - idx)%nat.
Proof.
  induction dataset as [|[x y] rest IH]; intros n idx H; [simpl; lia|].
  rewrite scan_cons.
  destruct (Z.eqb y (Z.of_nat idx)).
  - destruct (Nat.eqb_spec (S idx) n); simpl; [lia|].
    specialize (IH n (S idx)). lia.
  - destruct (Nat.eqb_spec idx n); [simpl; lia | now apply IH].
Qed.


End Scan.

(** ** The positions the scan retains *)

Lemma combine_map_S (a : list nat) (labels : list Z) :
  combine (map S a) labels = map (fun p => (S (fst p), snd p)) (combine a labels).
Proof.
  revert labels; induction a as [|i a IH]; intros [|y labels]; simpl; auto.
  now rewrite IH.
Qed.

Lemma positions_from_cons (y : Z) (labels : list Z) (len_labels idx : nat) :
  positions_from (y :: labels) len_labels idx =
  if Z.eqb y (Z.of_nat idx)
  then O :: (if Nat.eqb (S idx) len_labels then []
             else map S (positions_from labels len_labels (S idx)))
  else if Nat.eqb idx len_labels then []
       else map S (positions_from labels len_labels idx).
Proof.
  unfold positions_from. cbn [length seq combine]. rewrite scan_cons.
  rewrite <- seq_shift, combine_map_S.
  now rewrite !(scan_map S _ len_labels []).
Qed.

Lemma nth_map_S (l : list nat) (k : nat) :
  (k < length l)%nat -> nth k (map S l) O = S (nth k l O).
Proof.
  intros H. rewrite (nth_indep _ O (S O)) by now rewrite length_map.
  apply map_nth.
Qed.

Lemma first_from_Some : forall (labels : list Z) (start : nat) (y : Z) (p : nat),
  first_from labels start y = Some p ->
  (start <= p)%nat /\ nth_error labels p = Some y
  /\ forall q, (start <= q < p)%nat -> nth_error labels q <> Some y.
Proof.
  induction labels as [|y0 labels IH]; intros start y p H; simpl in H; [discriminate|].
  destruct start as [|start].
  - destruct (Z.eqb_spec y0 y) as [->|Hne].
    + injection H as <-. repeat split; [lia|]. intros q Hq; lia.
    + destruct (first_from labels O y) as [p'|] eqn:E; [|discriminate].
      injection H as <-. destruct (IH _ _ _ E) as (_ & Hp & Hq).
      repeat split; [lia | exact Hp |].
      intros [|q] Hlt; simpl; [congruence | apply Hq; lia].
  - destruct (first_from labels start y) as [p'|] eqn:E; [|discriminate].
    injection H as <-. destruct (IH _ _ _ E) as (Hs & Hp & Hq).
    repeat split; [lia | exact Hp |].
    intros [|q] Hlt; simpl; [lia | apply Hq; lia].
Qed.

(** Each retained position is the first one, after the position retained
    before it, whose label is the count of the exemplars already held. *)
Lemma positions_first : forall (labels : list Z) (len_labels idx k : nat),
  (k < length (positions_from labels len_labels idx))%nat ->
  first_from labels
    (match k with
     | O => O
     | S k' => S (nth k' (positions_from labels len_labels idx) O)
     end)
    (Z.of_nat (idx + k))
  = Some (nth k (positions_from labels len_labels idx) O).
Proof.
  induction labels as [|y labels IH]; intros n idx k Hk; [simpl in Hk; lia|].
  rewrite positions_from_cons in *.
  destruct (Z.eqb_spec y (Z.of_nat idx)) as [->|Hne].
  - destruct k as [|k].
    + cbn [first_from nth]. now rewrite Nat.add_0_r, Z.eqb_refl.
    + cbn [length] in Hk. apply Nat.succ_lt_mono in Hk.
      destruct (Nat.eqb (S idx) n); [simpl in Hk; lia|].
      rewrite length_map in Hk. specialize (IH n (S idx) k Hk).
      cbn [nth]. rewrite (nth_map_S _ k Hk).
      replace (idx + S k)%nat with (S idx + k)%nat by lia.
      destruct k as [|k]; cbn [first_from nth].
      * now rewrite IH.
      * rewrite nth_map_S by lia. cbn [first_from]. now rewrite IH.
  - destruct (Nat.eqb idx n); [simpl in Hk; lia|].
    rewrite length_map in Hk. specialize (IH n idx k Hk).
    rewrite (nth_map_S _ k Hk).
    destruct k as [|k]; cbn [first_from].
    + rewrite Nat.add_0_r in *.
      destruct (Z.eqb_spec y (Z.of_nat idx)); [contradiction|]. now rewrite IH.
    + rewrite nth_map_S by lia. cbn [first_from]. now rewrite IH.
Qed.

Lemma positions_labels (labels : list Z) (len_labels idx k : nat) :
  (k < length (positions_from labels len_labels idx))%nat ->
  nth_error labels (nth k (positions_from labels len_labels idx) O)
  = Some (Z.of_nat (idx + k)).
Proof. intros H. now apply positions_first, first_from_Some in H. Qed.

Lemma StronglySorted_map_S (l : list nat) :
  StronglySorted lt l -> StronglySorted lt (map S l).
Proof.
  induction 1 as [|a l Hs IH Ha]; simpl; constructor; auto.
  rewrite Forall_forall in *. intros b Hb.
  apply in_map_iff in Hb as (c & <- & Hc). apply Ha in Hc. lia.
Qed.

Lemma Forall_lt_map_S (l : list nat) : Forall (lt O) (map S l).
Proof.
  apply Forall_forall; intros b Hb. apply in_map_iff in Hb as (c & <- & _). lia.
Qed.

(** The stream is read in its order: the retained positions increase. *)
Lemma positions_sorted : forall (labels : list Z) (len_labels idx : nat),
  StronglySorted lt (positions_from labels len_labels idx).
Proof.
  induction labels as [|y labels IH]; intros n idx; [constructor|].
  rewrite positions_from_cons.
  destruct (Z.eqb y (Z.of_nat idx)).
  - destruct (Nat.eqb (S idx) n); constructor;
      auto using StronglySorted_map_S, Forall_lt_map_S; constructor.
  - destruct (Nat.eqb idx n); [constructor | auto using StronglySorted_map_S].
Qed.

(** ** Chains of labels *)

Lemma chain_from_0 (labels : list Z) (n : nat) (ps : list nat) :
  chain labels n ps <-> chain_from labels 0 n ps.
Proof. reflexivity. Qed.

Lemma positions_chain (labels : list Z) (len_labels idx : nat) :
  chain_from labels idx (length (positions_from labels len_labels idx))
    (positions_from labels len_labels idx).
Proof.
  split; [reflexivity|]. split; [apply positions_sorted|].
  intros k Hk. now apply positions_labels.
Qed.

Lemma StronglySorted_map_pred (l : list nat) :
  StronglySorted lt l -> Forall (lt O) l -> StronglySorted lt (map pred l).
Proof.
  induction 1 as [|a l Hs IH Ha]; intros Hpos; simpl; constructor.
  - apply IH. now inversion Hpos.
  - inversion Hpos as [|? ? Ha0 Hl0]; subst.
    rewrite Forall_forall in *. intros b Hb.
    apply in_map_iff in Hb as (c & <- & Hc).
    specialize (Ha c Hc). specialize (Hl0 c Hc). lia.
Qed.

(** A chain that avoids position 0 is a chain of the rest of the stream. *)
Lemma chain_from_shift (y : Z) (labels : list Z) (idx count : nat) (qs : list nat) :
  chain_from (y :: labels) idx count qs -> Forall (lt O) qs ->
  chain_from labels idx count (map pred qs).
Proof.
  intros (Hl & Hs & Hq) Hpos. split; [now rewrite length_map|].
  split; [now apply StronglySorted_map_pred|].
  intros k Hk. specialize (Hq k Hk).
  change O with (pred O) at 1. rewrite map_nth.
  assert (Hin : In (nth k qs O) qs) by (apply nth_In; lia).
  rewrite Forall_forall in Hpos. specialize (Hpos _ Hin).
  destruct (nth k qs O) as [|q]; [lia | exact Hq].
Qed.

Lemma chain_from_tail (labels : list Z) (idx count q0 : nat) (qs : list nat) :
  chain_from labels idx (S count) (q0 :: qs) ->
  chain_from labels (S idx) count qs /\ Forall (lt q0) qs
  /\ nth_error labels q0 = Some (Z.of_nat idx).
Proof.
  intros (Hl & Hs & Hq). inversion Hs as [|? ? Hs' Hlt]; subst.
  split; [|split].
  - split; [simpl in Hl; lia|]. split; [assumption|].
    intros k Hk. specialize (Hq (S k) ltac:(lia)). simpl in Hq.
    now replace (S idx + k)%nat with (idx + S k)%nat by lia.
  - assumption.
  - specialize (Hq O ltac:(lia)). simpl in Hq. now rewrite Nat.add_0_r in Hq.
Qed.

(** If the stream holds any chain for the labels still to come, the scan
    collects them all. *)
Lemma positions_complete : forall (labels : list Z) (len_labels idx : nat),
  (idx < len_labels)%nat ->
  (exists qs, chain_from labels idx (len_labels - idx) qs) ->
  length (positions_from labels len_labels idx) = (len_labels - idx)%nat.
Proof.
  induction labels as [|y labels IH]; intros n idx Hlt [qs Hc].
  - destruct Hc as (_ & _ & Hq). specialize (Hq O ltac:(lia)).
    destruct (nth O qs O); discriminate.
  - rewrite positions_from_cons.
    destruct qs as [|q0 qs]; [destruct Hc as (Hl & _); simpl in Hl; lia|].
    replace (n - idx)%nat with (S (n - S idx)) in Hc by lia.
    destruct (chain_from_tail _ _ _ _ _ Hc) as (Ht & Hgt & H0).
    destruct (Z.eqb_spec y (Z.of_nat idx)) as [->|Hne].
    + destruct (Nat.eqb_spec (S idx) n) as [<-|Hn]; [cbn [length]; lia|].
      cbn [length]. rewrite length_map, (IH n (S idx)); [lia | lia |].
      exists (map pred qs). apply chain_from_shift with (y := Z.of_nat idx); [assumption|].
      eapply Forall_impl; [|exact Hgt]. intros; lia.
    + destruct (Nat.eqb_spec idx n); [lia|].
      rewrite length_map, (IH n idx Hlt); [lia|].
      exists (map pred (q0 :: qs)).
      replace (n - idx)%nat with (S (n - S idx)) by lia.
      apply chain_from_shift with (y := y); [assumption|].
      assert (q0 <> O) by (intros ->; simpl in H0; congruence).
      constructor; [lia|]. eapply Forall_impl; [|exact Hgt]. intros; lia.
Qed.

(** ** Exemplars and positions *)

Lemma enumerate_cons {X : Type} (start : nat) (x : X) (y : Z) (dataset : list (X * Z)) :
  enumerate start ((x, y) :: dataset) = (start, y) :: enumerate (S start) dataset.
Proof. reflexivity. Qed.

Lemma enumerate_lookup {X : Type} : forall (dataset pre : list (X * Z)),
  map (fun q => (option_map fst (nth_error (pre ++ dataset) (fst q)), snd q))
      (enumerate (length pre) dataset)
  = map (fun p => (Some (fst p), snd p)) dataset.
Proof.
  induction dataset as [|[x y] rest IH]; intros pre; [reflexivity|].
  rewrite enumerate_cons. cbn [map fst snd]. f_equal.
  - rewrite nth_error_app2, Nat.sub_diag by lia. reflexivity.
  - specialize (IH (pre ++ [(x, y)])).
    rewrite length_app, Nat.add_1_r, <- app_assoc in IH. exact IH.
Qed.

Lemma scan_positions_labels {X : Type} (dataset : list (X * Z)) (len_labels : nat) :
  scan_positions dataset len_labels = positions_from (map snd dataset) len_labels 0.
Proof. unfold scan_positions, positions_from, enumerate. now rewrite length_map. Qed.

(** The exemplars are the images at the retained positions. *)
Lemma scan_by_positions {X : Type} (dataset : list (X * Z)) (len_labels : nat) :
  map Some (scan dataset len_labels [] 0)
  = map (fun p => option_map fst (nth_error dataset p)) (scan_positions dataset len_labels).
Proof.
  unfold scan_positions.
  rewrite <- (scan_map Some dataset len_labels []).
  rewrite <- (scan_map (fun p => option_map fst (nth_error dataset p))
                       (enumerate 0 dataset) len_labels []).
  pose proof (enumerate_lookup dataset []) as E. cbn [app length] in E.
  now rewrite E.
Qed.

Lemma scan_positions_length {X : Type} (dataset : list (X * Z)) (len_labels : nat) :
  length (scan_positions dataset len_labels) = length (scan dataset len_labels [] 0).
Proof.
  rewrite <- (length_map Some (scan dataset len_labels [] 0)), scan_by_positions.
  now rewrite length_map.
Qed.

(** C10. The scan retains an element only when its label is the count of
    the exemplars already held: the [k]-th retained position carries the
    label [k], and it is the first position with that label after the
    position retained before it. The scan collects [len_labels] exemplars
    if and only if the stream has elements labelled 0, 1, ...,
    [len_labels - 1] at strictly increasing positions. *)
Theorem scan_collects_chain {X : Type} (dataset : list (X * Z)) (len_labels : nat) :
  map Some (scan dataset len_labels [] 0)
  = map (fun p => option_map fst (nth_error dataset p)) (scan_positions dataset len_labels)
  /\ (forall k, (k < length (scan_positions dataset len_labels))%nat ->
        nth_error (map snd dataset) (nth k (scan_positions dataset len_labels) O)
        = Some (Z.of_nat k))
  /\ ((len_labels <= length (scan dataset len_labels [] 0))%nat
      <-> exists qs, chain (map snd dataset) len_labels qs)
  /\ (forall k, (k < length (scan_positions dataset len_labels))%nat ->
        first_from (map snd dataset)
          (match k with
           | O => O
           | S k' => S (nth k' (scan_positions dataset len_labels) O)
           end)
          (Z.of_nat k)
        = Some (nth k (scan_positions dataset len_labels) O)).
Proof.
  split; [apply scan_by_positions|].
  rewrite <- scan_positions_length, scan_positions_labels.
  split; [intros k Hk; now apply (positions_labels _ _ 0)|].
  split; [|intros k Hk; now apply (positions_first _ _ 0)].
  destruct len_labels as [|n].
  - split; [|lia]. intros _. exists []. repeat split; [constructor | lia].
  - pose proof (scan_length_le (enumerate 0 dataset) (S n) 0 ltac:(lia)) as Hle.
    fold (scan_positions dataset (S n)) in Hle. rewrite scan_positions_labels in Hle.
    split.
    + intros Hge. exists (positions_from (map snd dataset) (S n) 0).
      apply chain_from_0.
      replace (S n) with (length (positions_from (map snd dataset) (S n) 0)) at 1 by lia.
      apply positions_chain.
    + intros [qs Hc]. apply chain_from_0 in Hc.
      rewrite (positions_complete (map snd dataset) (S n) 0); [lia | lia |].
      exists qs. now rewrite Nat.sub_0_r.
Qed.

Lemma scan_collects_chain_witness :
  (2 <= length (scan [(flat_image 1, 1%Z); (flat_image 2, 0%Z); (flat_image 3, 1%Z)] 2 [] 0))%nat
  <-> exists qs,
        chain (map snd [(flat_image 1, 1%Z); (flat_image 2, 0%Z); (flat_image 3, 1%Z)]) 2 qs.
Proof.
  apply (scan_collects_chain
           [(flat_image 1, 1%Z); (flat_image 2, 0%Z); (flat_image 3, 1%Z)] 2).
Defined.

(** ** Subscripts and loops that may raise *)

Lemma getitem_nat {A : Type} (l : list A) (d : nat) :
  getitem l (Z.of_nat d) =
  match nth_error l d with
  | Some a => Ok a
  | None => Raise IndexError
  end.
Proof.
  unfold getitem.
  destruct (Z.ltb_spec (Z.of_nat d) 0) as [Hneg|_]; [lia|].
  rewrite Nat2Z.id.
  destruct (nth_error l d) as [a|] eqn:E.
  - assert (d < length l)%nat by (apply nth_error_Some; congruence).
    destruct (Z.leb_spec 0 (Z.of_nat d)); [|lia].
    destruct (Z.ltb_spec (Z.of_nat d) (Z.of_nat (length l))); [reflexivity | lia].
  - destruct (Z.leb 0 (Z.of_nat d) && Z.ltb (Z.of_nat d) (Z.of_nat (length l))); reflexivity.
Qed.

Lemma rmap_nth {A B : Type} (f : A -> result B) : forall (xs : list A) (ys : list B),
  rmap f xs = Ok ys ->
  forall k x, nth_error xs k = Some x ->
              exists y, nth_error ys k = Some y /\ f x = Ok y.
Proof.
  induction xs as [|x0 xs IH]; intros ys H k x Hk.
  - destruct k; discriminate.
  - simpl in H. destruct (f x0) as [y0|] eqn:E0; simpl in H; [|discriminate].
    destruct (rmap f xs) as [ys'|] eqn:E; simpl in H; [|discriminate].
    injection H as <-. destruct k as [|k]; simpl in *.
    + injection Hk as <-. eauto.
    + eapply IH; eauto.
Qed.

(** The loop raises what its first failing turn raises. *)
Lemma rmap_raise_at {A B : Type} (f : A -> result B) (e : exn) :
  forall (pre : list A) (x : A) (post : list A),
    (forall a, In a pre -> exists b, f a = Ok b) ->
    f x = Raise e ->
    rmap f (pre ++ x :: post) = Raise e.
Proof.
  induction pre as [|a pre IH]; intros x post Hpre Hx; simpl.
  - now rewrite Hx.
  - destruct (Hpre a (or_introl eq_refl)) as [b ->]. simpl.
    rewrite IH; auto. intros a' Ha'. apply Hpre. now right.
Qed.

Lemma rmap_raise_in {A B : Type} (f : A -> result B) : forall (xs : list A) (x : A) (e : exn),
  In x xs -> f x = Raise e -> exists e', rmap f xs = Raise e'.
Proof.
  induction xs as [|a xs IH]; intros x e Hin Hx; [destruct Hin|].
  simpl. destruct (f a) as [b|e0] eqn:Ea; simpl; [|eauto].
  destruct Hin as [->|Hin]; [congruence|].
  destruct (IH x e Hin Hx) as [e' ->]. simpl. eauto.
Qed.

Lemma rmap_all_Ok {A B : Type} (f : A -> result B) : forall xs : list A,
  (forall a, In a xs -> exists b, f a = Ok b) -> exists ys, rmap f xs = Ok ys.
Proof.
  induction xs as [|a xs IH]; intros H; simpl; [eauto|].
  destruct (H a (or_introl eq_refl)) as [b ->]. simpl.
  destruct IH as [ys ->]; [intros a' Ha'; apply H; now right|]. simpl. eauto.
Qed.

(** ** The exemplars *)

Lemma scan_In {X : Type} : forall (dataset : list (X * Z)) (len_labels idx : nat) (x : X),
  In x (scan dataset len_labels [] idx) -> In x (map fst dataset).
Proof.
  induction dataset as [|[x0 y] rest IH]; intros n idx x H; [destruct H|].
  rewrite scan_cons in H. cbn [map fst].
  destruct (Z.eqb y (Z.of_nat idx)).
  - destruct H as [<-|H]; [now left|]. right.
    destruct (Nat.eqb (S idx) n); [destruct H | eapply IH; eassumption].
  - right. destruct (Nat.eqb idx n); [destruct H | eapply IH; eassumption].
Qed.

(** An image of 784 pixels is encoded by a model built for them, into one
    mean row and one spread row of [z_dim] entries. *)
Lemma encode_exemplar_ok (h_dim z_dim : nat) (m : VariationalAutoEncoder)
  (images : list vec) (d : nat) (x : vec) :
  constructed 784 h_dim z_dim m = true ->
  nth_error images d = Some x -> length x = 784%nat ->
  exists mu sigma,
    encode_exemplar m images d = Ok (mu, sigma)
    /\ encode m [x] = Ok (mu, sigma)
    /\ length mu = 1%nat /\ length sigma = 1%nat
    /\ Forall (fun r => length r = z_dim) mu
    /\ Forall (fun r => length r = z_dim) sigma.
Proof.
  intros Hm Hd Hx. unfold encode_exemplar. rewrite getitem_nat, Hd. simpl.
  unfold view_1. rewrite Hx, Nat.eqb_refl. simpl.
  destruct (encode_ok 784 h_dim z_dim m [x] Hm) as (mu & sigma & E);
    [repeat constructor; assumption|].
  destruct (encode_shape _ _ _ _ _ _ _ Hm E) as (Lm & Ls & Rm & Rs).
  exists mu, sigma. auto 10.
Qed.

Lemma encode_exemplar_out_of_range (m : VariationalAutoEncoder) (images : list vec) (d : nat) :
  (length images <= d)%nat -> encode_exemplar m images d = Raise IndexError.
Proof.
  intros H. unfold encode_exemplar. rewrite getitem_nat.
  apply nth_error_None in H. now rewrite H.
Qed.

(** ** Runs that raise *)

Lemma for_each_raise {A : Type} (body : A -> M unit) (x : A) (xs : list A)
  (e : exn) (w w' : world) :
  body x w = (Raise e, w') -> for_each (x :: xs) body w = (Raise e, w').
Proof. intros H. simpl. unfold mbind. now rewrite H. Qed.

Lemma inference_label_raise (m : VariationalAutoEncoder) (len_labels : nat)
  (folder : string) (dataset : list (vec * Z)) (n_examples : nat) (label : Z)
  (e : exn) (w : world) :
  rmap (encode_exemplar m (scan dataset len_labels [] 0)) (seq 0 len_labels) = Raise e ->
  inference_label m len_labels folder dataset n_examples label w = (Raise e, w).
Proof. intros H. unfold inference_label, mbind, lift. now rewrite H. Qed.

Lemma seq_split_at (n k : nat) :
  (k < n)%nat -> seq 0 n = seq 0 k ++ k :: seq (S k) (n - S k).
Proof.
  intros H. replace n with (k + S (n - S k))%nat at 1 by lia.
  rewrite seq_app. reflexivity.
Qed.

(** With too few exemplars the encoding loop raises; when every image of
    the stream has 784 pixels and the model is built for them, what it
    raises is the [IndexError] of [images[d]]. *)
Lemma encodings_short (m : VariationalAutoEncoder) (images : list vec) (len_labels : nat) :
  (length images < len_labels)%nat ->
  (exists e, rmap (encode_exemplar m images) (seq 0 len_labels) = Raise e)
  /\ (forall h_dim z_dim,
         constructed 784 h_dim z_dim m = true ->
         Forall (fun x => length x = 784%nat) images ->
         rmap (encode_exemplar m images) (seq 0 len_labels) = Raise IndexError).
Proof.
  intros H.
  pose proof (encode_exemplar_out_of_range m images (length images) (le_n _)) as Hout.
  split.
  - apply rmap_raise_in with (x := length images) (e := IndexError); [|exact Hout].
    apply in_seq; lia.
  - intros h_dim z_dim Hm Himg.
    rewrite (seq_split_at len_labels (length images) H).
    apply rmap_raise_at; [|exact Hout].
    intros d Hd. apply in_seq in Hd.
    destruct (nth_error images d) as [x|] eqn:E;
      [|apply nth_error_None in E; lia].
    assert (Hx : length x = 784%nat)
      by (rewrite Forall_forall in Himg; eapply Himg, nth_error_In; eassumption).
    destruct (encode_exemplar_ok h_dim z_dim m images d x Hm E Hx) as (mu & sigma & Hok & _).
    eauto.
Qed.

Lemma scan_images_784 (dataset : list (vec * Z)) (len_labels : nat) :
  Forall (fun x => length x = 784%nat) (map fst dataset) ->
  Forall (fun x => length x = 784%nat) (scan dataset len_labels [] 0).
Proof.
  rewrite !Forall_forall. intros H x Hx. eapply H, scan_In, Hx.
Qed.

(** C8, as the code has it. When the stream is exhausted before
    [len(labels)] exemplars are collected, [inference] raises while it
    handles the first requested label, before any draw and any write. Its
    exception is the [IndexError] of the subscript [images[d]] whenever
    the images have 784 pixels and the model is built for them; the code
    has no exception of its own for the case. *)
Theorem inference_short_stream (m : VariationalAutoEncoder) (labels : list Z)
  (folder : string) (dataset : list (vec * Z)) (n_examples : nat) (w : world) :
  (length (scan dataset (length labels) [] 0) < length labels)%nat ->
  (exists e, inference m labels folder dataset n_examples w = (Raise e, w))
  /\ (forall h_dim z_dim,
         constructed 784 h_dim z_dim m = true ->
         Forall (fun x => length x = 784%nat) (map fst dataset) ->
         inference m labels folder dataset n_examples w = (Raise IndexError, w)).
Proof.
  intros H. destruct labels as [|label labels]; [simpl in H; lia|].
  destruct (encodings_short m _ _ H) as ([e He] & Hidx).
  unfold inference. split.
  - exists e. now apply for_each_raise, inference_label_raise.
  - intros h_dim z_dim Hm Himg.
    apply for_each_raise, inference_label_raise.
    apply (Hidx h_dim z_dim Hm). now apply scan_images_784.
Qed.

Lemma inference_short_stream_witness :
  (exists e, inference mnist_model [0%Z; 1%Z] "generated" [(flat_image 0, 0%Z)] 1
               (still_world 0) = (Raise e, still_world 0))
  /\ (forall h_dim z_dim,
         constructed 784 h_dim z_dim mnist_model = true ->
         Forall (fun x => length x = 784%nat) (map fst [(flat_image 0, 0%Z)]) ->
         inference mnist_model [0%Z; 1%Z] "generated" [(flat_image 0, 0%Z)] 1
           (still_world 0) = (Raise IndexError, still_world 0)).
Proof.
  apply (inference_short_stream mnist_model [0%Z; 1%Z] "generated"
           [(flat_image 0, 0%Z)] 1 (still_world 0)).
  simpl. lia.
Defined.

(** C8, counterexample to the claim as stated: the stream holds an
    exemplar for the label 0 and none for the label 1, and the run ends
    with the [IndexError] of a subscript out of range. *)
Lemma short_stream_raises_IndexError :
  (length (scan [(flat_image 0, 0%Z)] (length [0%Z; 1%Z]) [] 0) < length [0%Z; 1%Z])%nat
  /\ inference mnist_model [0%Z; 1%Z] "generated" [(flat_image 0, 0%Z)] 1 (still_world 0)
     = (Raise IndexError, still_world 0).
Proof.
  split; [simpl; lia | reflexivity].
Qed.

(** ** What a run writes *)



Lemma flat_map_singleton {A B : Type} (f : A -> B) (xs : list A) :
  flat_map (fun a => [f a]) xs = map f xs.
Proof. induction xs as [|x xs IH]; simpl; congruence. Qed.







(** ** The exemplar of a requested label *)

Lemma getitem_encodings (m : VariationalAutoEncoder) (images : list vec)
  (len_labels : nat) (encodings_digit : list (tensor * tensor)) (label : Z) :
  rmap (encode_exemplar m images) (seq 0 len_labels) = Ok encodings_digit ->
  (0 <= label < Z.of_nat len_labels)%Z ->
  exists x,
    nth_error images (Z.to_nat label) = Some x
    /\ getitem encodings_digit label = (v <- view_1 784 x ;; encode m v)%res.
Proof.
  intros H Hl.
  assert (Hk : nth_error (seq 0 len_labels) (Z.to_nat label) = Some (Z.to_nat label)).
  { rewrite nth_error_nth' with (d := O) by (rewrite length_seq; lia).
    rewrite seq_nth by lia. reflexivity. }
  destruct (rmap_nth _ _ _ H _ _ Hk) as (enc & Henc & Hf).
  unfold encode_exemplar in Hf. rewrite getitem_nat in Hf.
  destruct (nth_error images (Z.to_nat label)) as [x|]; [|discriminate].
  exists x. split; [reflexivity|].
  rewrite <- (Z2Nat.id label) at 1 by lia.
  rewrite getitem_nat, Henc. simpl in Hf. now rewrite Hf.
Qed.




(** ** Runs that end without exception *)

Lemma for_each_ok {A : Type} (body : A -> M unit) : forall (xs : list A),
  (forall a, In a xs -> forall w, exists w', body a w = (Ok tt, w')) ->
  forall w, exists w', for_each xs body w = (Ok tt, w').
Proof.
  induction xs as [|x xs IH]; intros H w; simpl.
  - exists w. reflexivity.
  - destruct (H x (or_introl eq_refl) w) as [w1 E1].
    destruct (IH (fun a Ha => H a (or_intror Ha)) w1) as [w2 E2].
    exists w2. unfold mbind. now rewrite E1.
Qed.

Lemma view_28_28_one_image (out : tensor) :
  length out = 1%nat -> Forall (fun img => length img = 784%nat) out ->
  exists out', view_28_28 out = Ok out'.
Proof.
  intros L R. unfold view_28_28.
  rewrite (concat_length_rows 784 out R), L.
  eexists. reflexivity.
Qed.

(** One example is generated and written, whatever the draws, from a mean
    and a spread of one row of [z_dim] entries. *)
Lemma generate_example_ok (h_dim z_dim : nat) (m : VariationalAutoEncoder)
  (folder : string) (label : Z) (mu sigma : tensor) (example : nat) (w : world) :
  constructed 784 h_dim z_dim m = true ->
  length mu = 1%nat -> length sigma = 1%nat ->
  Forall (fun r => length r = z_dim) mu ->
  Forall (fun r => length r = z_dim) sigma ->
  exists w', generate_example m folder label mu sigma example w = (Ok tt, w').
Proof.
  intros Hm Lm Ls Rm Rs.
  assert (Sms : same_shape mu sigma) by (apply (same_shape_rows z_dim); auto; lia).
  unfold generate_example, mbind, randn_like, lift, save_image.
  pose proof (fill_like_shape sigma (rng w)) as Se.
  destruct (fill_like sigma (rng w)) as [eps g']. simpl in Se.
  pose proof (reparametrized_shape _ _ _ Sms Se) as Sz.
  destruct (decode_ok _ _ _ _ _ Hm (rows_same_shape z_dim _ _ Sz Rs)) as (out & D & Lo & Ro).
  rewrite D.
  destruct (view_28_28_one_image out) as [out' V]; [|assumption|].
  - rewrite Lo, (same_shape_length _ _ Sz). exact Ls.
  - rewrite V. eexists. reflexivity.
Qed.


(* ===================================================================== *)
(** * Further properties of the loss                                       *)
(* ===================================================================== *)

(** ** The sign of the divergence term *)

Lemma ln_le_minus_1 (x : R) : (0 < x)%R -> (ln x <= x - 1)%R.
Proof.
  intros H. pose proof (exp_ineq1_le (ln x)) as E.
  rewrite exp_ln in E by assumption. lra.
Qed.

Lemma ln_eq_minus_1 (x : R) : (0 < x)%R -> ln x = (x - 1)%R -> x = 1%R.
Proof.
  intros H E. destruct (Req_dec (ln x) 0) as [Z|NZ].
  - lra.
  - pose proof (exp_ineq1 (ln x) NZ) as S. rewrite exp_ln in S by assumption. lra.
Qed.

(** One entry of the sum in [kl_div]: it is at most 0, and it is 0 only
    for a mean 0 and a spread 1 or -1. *)
Lemma kl_term_sign (mean spread : R) :
  spread <> 0%R ->
  exists t, kl_term mean spread = Finite t /\ (t <= 0)%R
            /\ (t = 0%R <-> mean = 0%R /\ (spread = 1 \/ spread = -1)%R).
Proof.
  intros H. rewrite kl_term_nonzero by assumption. eexists. split; [reflexivity|].
  assert (Hs : (0 < spread ^ 2)%R) by (simpl; nra).
  pose proof (ln_le_minus_1 _ Hs) as Hl.
  assert (Hm : (0 <= mean ^ 2)%R) by (simpl; nra).
  split; [lra|]. split.
  - intros E.
    assert (E1 : ln (spread ^ 2) = (spread ^ 2 - 1)%R) by lra.
    apply ln_eq_minus_1 in E1; [|assumption].
    assert (E2 : (mean ^ 2 = 0)%R) by lra.
    split; [simpl in E2; nra|]. simpl in E1.
    destruct (Rle_dec 0 spread); [left | right]; nra.
  - intros [-> [-> | ->]].
    + replace (1 ^ 2)%R with 1%R by ring. rewrite ln_1. ring.
    + replace ((-1) ^ 2)%R with 1%R by ring. rewrite ln_1. ring.
Qed.

Lemma nsum_nonpos (l : list num) :
  Forall nonpos l ->
  exists r, nsum l = Finite r /\ (r <= 0)%R
            /\ (r = 0%R <-> Forall (fun a => a = Finite 0) l).
Proof.
  induction 1 as [|a l (t & -> & Ht) _ (r & Er & Hr & Hz)]; simpl.
  - exists 0%R. split; [reflexivity|]. split; [lra|]. split; constructor.
  - rewrite Er. simpl. exists (t + r)%R. split; [reflexivity|]. split; [lra|].
    split.
    + intros E. assert (t = 0%R) by lra. assert (r = 0%R) by lra. subst t.
      constructor; [reflexivity | now apply Hz].
    + intros F. inversion F as [|? ? Ea Fl]; subst. injection Ea as ->.
      apply Hz in Fl. lra.
Qed.

Lemma kl_row_sign : forall r s : vec,
  length r = length s -> Forall (fun v => v <> 0%R) s ->
  Forall nonpos (zip_with kl_term r s)
  /\ (Forall (fun a => a = Finite 0) (zip_with kl_term r s)
      <-> Forall (fun m => m = 0%R) r
          /\ Forall (fun v => v = 1 \/ v = -1)%R s).
Proof.
  induction r as [|m r IH]; intros [|v s] L Hs; simpl in *; try discriminate.
  - split; [constructor|]. split; [split|]; constructor.
  - injection L as L. inversion Hs as [|? ? Hv Hs']; subst.
    destruct (IH s L Hs') as (Hn & Hz).
    destruct (kl_term_sign m v Hv) as (t & Et & Ht & Hzt).
    split; [constructor; [exists t; auto | assumption]|].
    split.
    + intros F. inversion F as [|? ? Ea Fl]; subst.
      rewrite Et in Ea. injection Ea as Ea. apply Hzt in Ea as [Em Ev].
      apply Hz in Fl as [Fr Fs]. split; constructor; assumption.
    + intros [Fr Fs]. inversion Fr; inversion Fs; subst.
      constructor; [|apply Hz; split; assumption].
      rewrite Et. f_equal. apply Hzt. split; [reflexivity | assumption].
Qed.

Lemma kl_rows_sign : forall mu sigma : tensor,
  same_shape mu sigma -> Forall (Forall (fun v => v <> 0%R)) sigma ->
  Forall nonpos (map nsum (tzip kl_term mu sigma))
  /\ (Forall (fun a => a = Finite 0) (map nsum (tzip kl_term mu sigma))
      <-> Forall (Forall (fun m => m = 0%R)) mu
          /\ Forall (Forall (fun v => v = 1 \/ v = -1)%R) sigma).
Proof.
  unfold same_shape, tzip.
  induction mu as [|r mu IH]; intros [|s sigma] H Hs; simpl in *; try discriminate.
  - split; [constructor|]. split; [split|]; constructor.
  - injection H as Hr Hrest. inversion Hs as [|? ? Hv Hs']; subst.
    destruct (IH sigma Hrest Hs') as (Hn & Hz).
    destruct (kl_row_sign r s Hr Hv) as (Rn & Rz).
    destruct (nsum_nonpos _ Rn) as (t & Et & Ht & Hzt).
    split; [constructor; [exists t; auto | assumption]|].
    split.
    + intros F. inversion F as [|? ? Ea Fl]; subst.
      rewrite Et in Ea. injection Ea as Ea. apply Hzt, Rz in Ea as [Em Ev].
      apply Hz in Fl as [Fr Fs]. split; constructor; assumption.
    + intros [Fr Fs]. inversion Fr; inversion Fs; subst.
      constructor; [|apply Hz; split; assumption].
      rewrite Et. f_equal. apply Hzt, Rz. split; assumption.
Qed.

(** A finite divergence term is at least 0, and it is 0 exactly for means
    all 0 and spreads all 1 or -1. *)
Lemma kl_div_sign (mu sigma : tensor) (r : R) :
  same_shape mu sigma -> kl_div mu sigma = Finite r ->
  (0 <= r)%R
  /\ (r = 0%R <-> Forall (Forall (fun m => m = 0%R)) mu
                  /\ Forall (Forall (fun v => v = 1 \/ v = -1)%R) sigma).
Proof.
  intros H E.
  assert (Hs : Forall (Forall (fun v => v <> 0%R)) sigma)
    by (apply (kl_div_finite_iff mu sigma H); exists r; exact E).
  destruct (kl_rows_sign mu sigma H Hs) as (Hn & Hz).
  destruct (nsum_nonpos _ Hn) as (t & Et & Ht & Hzt).
  rewrite kl_div_tzip in E by assumption. unfold torch_sum in E.
  rewrite Et in E. simpl in E. injection E as <-.
  split; [lra|]. rewrite <- Hz, <- Hzt. split; intros; lra.
Qed.



(** X2. With a mixing coefficient in [0,1], a reconstruction term that is
    at least 0 and a mean and a spread tensor of one shape, the loss of
    [train], when finite, is at least 0. *)
Theorem loss_nonnegative (alpha rec v : R) (mu sigma : tensor) :
  (0 <= alpha <= 1)%R -> (0 <= rec)%R -> same_shape mu sigma ->
  loss alpha (Finite rec) (kl_div mu sigma) = Finite v ->
  (0 <= v)%R.
Proof.
  intros Ha Hr H E. destruct (kl_div mu sigma) as [k|] eqn:K; [|discriminate].
  destruct (kl_div_sign mu sigma k H K) as (Hk & _).
  rewrite loss_finite in E. injection E as <-. nra.
Qed.

Lemma loss_nonnegative_witness : (0 <= 1 / 2 * 4 + (1 - 1 / 2) * 0)%R.
Proof.
  apply (loss_nonnegative (1 / 2) 4 _ [[0%R; 0%R]] [[1%R; 1%R]]);
    [lra | lra | reflexivity |].
  rewrite kl_div_standard_normal. reflexivity.
Defined.

(** ** The divergence term over batches *)

Lemma num_add_0_l (a : num) : num_add (Finite 0) a = a.
Proof. destruct a as [x|]; simpl; [f_equal; ring | reflexivity]. Qed.

Lemma num_add_assoc (a b c : num) :
  num_add (num_add a b) c = num_add a (num_add b c).
Proof.
  destruct a, b, c; simpl; try reflexivity. f_equal. ring.
Qed.

Lemma nsum_app (l1 l2 : list num) : nsum (l1 ++ l2) = num_add (nsum l1) (nsum l2).
Proof.
  induction l1 as [|a l1 IH].
  - change (nsum l2 = num_add (Finite 0) (nsum l2)). now rewrite num_add_0_l.
  - change (num_add a (nsum (l1 ++ l2)) = num_add (num_add a (nsum l1)) (nsum l2)).
    now rewrite IH, num_add_assoc.
Qed.

Lemma num_neg_add (a b : num) :
  num_neg (num_add a b) = num_add (num_neg a) (num_neg b).
Proof. destruct a, b; simpl; try reflexivity. f_equal. ring. Qed.

Lemma zip_with_app {A B C : Type} (f : A -> B -> C) :
  forall (a1 a2 : list A) (b1 b2 : list B),
    length a1 = length b1 ->
    zip_with f (a1 ++ a2) (b1 ++ b2) = zip_with f a1 b1 ++ zip_with f a2 b2.
Proof.
  induction a1 as [|x a1 IH]; intros a2 [|y b1] b2 H; simpl in *; try discriminate; auto.
  f_equal. apply IH. now injection H.
Qed.

Lemma same_shape_app {A B : Type} (a1 a2 : list (list A)) (b1 b2 : list (list B)) :
  same_shape a1 b1 -> same_shape a2 b2 -> same_shape (a1 ++ a2) (b1 ++ b2).
Proof. unfold same_shape. intros H1 H2. now rewrite !map_app, H1, H2. Qed.

(** X3. The divergence term is a sum over the samples, not a mean: the
    [kl_div] of two batches put one after the other is the sum of their
    [kl_div]s. *)
Theorem kl_div_concat (mu1 mu2 sigma1 sigma2 : tensor) :
  same_shape mu1 sigma1 -> same_shape mu2 sigma2 ->
  kl_div (mu1 ++ mu2) (sigma1 ++ sigma2)
  = num_add (kl_div mu1 sigma1) (kl_div mu2 sigma2).
Proof.
  intros H1 H2.
  rewrite !kl_div_tzip by (assumption || now apply same_shape_app).
  unfold torch_sum, tzip.
  rewrite zip_with_app by (now apply same_shape_length).
  now rewrite map_app, nsum_app, num_neg_add.
Qed.

Lemma kl_div_concat_witness :
  kl_div ([[0%R]] ++ [[2%R]]) ([[1%R]] ++ [[3%R]])
  = num_add (kl_div [[0%R]] [[1%R]]) (kl_div [[2%R]] [[3%R]]).
Proof.
  apply (kl_div_concat [[0%R]] [[2%R]] [[1%R]] [[3%R]]); reflexivity.
Defined.

Lemma pow2_tmap_Rabs (t : tensor) : pow2 (tmap Rabs t) = pow2 t.
Proof.
  unfold pow2, tmap. rewrite map_map. apply map_ext; intros r.
  rewrite map_map. apply map_ext; intros x. apply pow2_abs.
Qed.

(** X4. The divergence term sees the means and the spreads through their
    squares only: replacing every entry by its absolute value leaves
    [kl_div] as it is, so a spread and its opposite cost the same. *)
Theorem kl_div_abs (mu sigma : tensor) :
  kl_div (tmap Rabs mu) (tmap Rabs sigma) = kl_div mu sigma.
Proof. unfold kl_div. now rewrite !pow2_tmap_Rabs. Qed.

(* ===================================================================== *)
(** * Further properties of the model                                      *)
(* ===================================================================== *)

(** ** Batches *)

Lemma Linear_call_cases (l : Linear) (x : tensor) :
  Linear_call l x = Ok (map (affine l) x) \/ Linear_call l x = Raise RuntimeError.
Proof.
  unfold Linear_call.
  destruct (forallb (fun row => Nat.eqb (length row) (in_features l)) x); auto.
Qed.

Lemma Linear_call_app (l : Linear) (a b : tensor) :
  Linear_call l (a ++ b)
  = (ra <- Linear_call l a ;; rb <- Linear_call l b ;; Ok (ra ++ rb))%res.
Proof.
  unfold Linear_call. rewrite forallb_app.
  destruct (forallb _ a); simpl; [|reflexivity].
  destruct (forallb _ b); simpl; [|reflexivity].
  now rewrite map_app.
Qed.

Lemma relu_app (a b : tensor) : relu (a ++ b) = relu a ++ relu b.
Proof. unfold relu, tmap. apply map_app. Qed.

Lemma sigmoid_app (a b : tensor) : sigmoid (a ++ b) = sigmoid a ++ sigmoid b.
Proof. unfold sigmoid, tmap. apply map_app. Qed.

(** Case analysis on every call of a layer in the goal. *)
Ltac layer_cases :=
  repeat match goal with
         | |- context [Linear_call ?l ?x] =>
             let E := fresh "E" in
             destruct (Linear_call_cases l x) as [E|E]; rewrite E; simpl
         end.

Lemma encode_app (m : VariationalAutoEncoder) (x1 x2 : tensor) :
  encode m (x1 ++ x2)
  = ('(mu1, sigma1) <- encode m x1 ;;
     '(mu2, sigma2) <- encode m x2 ;;
     Ok (mu1 ++ mu2, sigma1 ++ sigma2))%res.
Proof.
  unfold encode. rewrite Linear_call_app.
  destruct (Linear_call_cases (img_2hid m) x1) as [E1|E1]; rewrite E1; simpl;
    [|reflexivity].
  destruct (Linear_call_cases (img_2hid m) x2) as [E2|E2]; rewrite E2; simpl.
  - rewrite relu_app, !Linear_call_app. layer_cases; reflexivity.
  - layer_cases; reflexivity.
Qed.

Lemma decode_app (m : VariationalAutoEncoder) (z1 z2 : tensor) :
  decode m (z1 ++ z2)
  = (out1 <- decode m z1 ;; out2 <- decode m z2 ;; Ok (out1 ++ out2))%res.
Proof.
  unfold decode. rewrite Linear_call_app.
  destruct (Linear_call_cases (z_2hid m) z1) as [E1|E1]; rewrite E1; simpl;
    [|reflexivity].
  destruct (Linear_call_cases (z_2hid m) z2) as [E2|E2]; rewrite E2; simpl.
  - rewrite relu_app, !Linear_call_app. layer_cases; now rewrite ?sigmoid_app.
  - layer_cases; reflexivity.
Qed.

(** X5. The encoder and the decoder treat the samples of a batch one by
    one: on two batches put one after the other they return the results
    on the first followed by the results on the second, and they raise if
    they raise on either. This holds for all parameters. *)
Theorem encode_decode_batchwise (m : VariationalAutoEncoder) (x1 x2 z1 z2 : tensor) :
  encode m (x1 ++ x2)
  = ('(mu1, sigma1) <- encode m x1 ;;
     '(mu2, sigma2) <- encode m x2 ;;
     Ok (mu1 ++ mu2, sigma1 ++ sigma2))%res
  /\ decode m (z1 ++ z2)
     = (out1 <- decode m z1 ;; out2 <- decode m z2 ;; Ok (out1 ++ out2))%res.
Proof. split; [apply encode_app | apply decode_app]. Qed.

(** ** Shapes and shape errors of the forward pass *)

Lemma forallb_length_false {A : Type} (n : nat) (l : list (list A)) :
  Exists (fun r => length r <> n) l ->
  forallb (fun r => Nat.eqb (length r) n) l = false.
Proof.
  induction 1 as [r l H|r l _ IH]; simpl.
  - apply Nat.eqb_neq in H. now rewrite H.
  - rewrite IH. apply andb_false_r.
Qed.

Lemma encode_ill_shaped (input_dim h_dim z_dim : nat) (m : VariationalAutoEncoder)
  (x : tensor) :
  constructed input_dim h_dim z_dim m = true ->
  Exists (fun r => length r <> input_dim) x ->
  encode m x = Raise RuntimeError.
Proof.
  unfold constructed; rewrite !andb_true_iff; intros ((((Hh & _) & _) & _) & _) Hx.
  apply Linear_shaped_inv in Hh as (Hin & _).
  unfold encode, Linear_call. rewrite Hin, forallb_length_false by assumption.
  reflexivity.
Qed.

(** X6. The forward pass of a model built by [__init__] gives back the
    shape it is given: on a batch of images of [input_dim] entries the
    reconstruction has one row of [input_dim] entries per image. *)
Theorem forward_keeps_shape (input_dim h_dim z_dim : nat)
  (m : VariationalAutoEncoder) (x : tensor) (w : world) :
  constructed input_dim h_dim z_dim m = true ->
  Forall (fun r => length r = input_dim) x ->
  exists x_reconstructed mu sigma,
    fst (forward m x w) = Ok (x_reconstructed, mu, sigma)
    /\ same_shape x_reconstructed x.
Proof.
  intros Hm Hx.
  destruct (encode_ok _ _ _ _ _ Hm Hx) as (mu & sigma & E).
  destruct (encode_shape _ _ _ _ _ _ _ Hm E) as (Lmu & Lsg & Rmu & Rsg).
  assert (Sms : same_shape mu sigma) by (apply (same_shape_rows z_dim); auto; lia).
  pose proof (reparametrized_shape _ _ _ Sms (fill_like_shape sigma (rng w))) as Sz.
  destruct (decode_ok _ _ _ _ _ Hm (rows_same_shape z_dim _ _ Sz Rsg)) as (xr & D & Lx & Rx).
  exists xr, mu, sigma. split.
  - rewrite (forward_eq _ _ _ _ w E). simpl. now rewrite D.
  - apply (same_shape_rows input_dim); auto.
    rewrite Lx, (same_shape_length _ _ Sz). exact Lsg.
Qed.

Lemma forward_keeps_shape_witness :
  exists x_reconstructed mu sigma,
    fst (forward tiny_model [[0%R; 0%R]; [1%R; 1%R]] (still_world 3))
    = Ok (x_reconstructed, mu, sigma)
    /\ same_shape x_reconstructed [[0%R; 0%R]; [1%R; 1%R]].
Proof.
  apply (forward_keeps_shape 2 1 1 tiny_model [[0%R; 0%R]; [1%R; 1%R]] (still_world 3));
    [reflexivity | repeat constructor].
Defined.

(** X7. On a batch one image of which has not [input_dim] entries, the
    forward pass of a model built by [__init__] raises the shape error of
    its first layer, before any draw: the world is left as it was. *)
Theorem forward_ill_shaped (input_dim h_dim z_dim : nat)
  (m : VariationalAutoEncoder) (x : tensor) (w : world) :
  constructed input_dim h_dim z_dim m = true ->
  Exists (fun r => length r <> input_dim) x ->
  forward m x w = (Raise RuntimeError, w).
Proof.
  intros Hm Hx. apply forward_raise. now apply encode_ill_shaped with input_dim h_dim z_dim.
Qed.

Lemma forward_ill_shaped_witness :
  forward tiny_model [[0%R; 0%R]; [1%R]] (still_world 3)
  = (Raise RuntimeError, still_world 3).
Proof.
  apply (forward_ill_shaped 2 1 1 tiny_model [[0%R; 0%R]; [1%R]] (still_world 3));
    [reflexivity|].
  apply Exists_cons_tl, Exists_cons_hd. simpl. lia.
Defined.

(** ** Noise that is zero *)

Lemma draws_zero (n : nat) : forall g : nat -> R,
  (forall k, (k < n)%nat -> g k = 0%R) -> draws n g = repeat 0%R n.
Proof.
  induction n as [|n IH]; intros g H; [reflexivity|].
  unfold draws. cbn [seq map repeat]. f_equal; [apply H; lia|].
  rewrite <- seq_shift, map_map. apply (IH (fun k => g (S k))).
  intros k Hk. apply H. lia.
Qed.

Lemma reparametrize_row_zero : forall r s : vec,
  length r = length s ->
  zip_with Rplus r (zip_with Rmult s (repeat 0%R (length s))) = r.
Proof.
  induction r as [|m r IH]; intros [|v s] H; simpl in *; try discriminate; auto.
  f_equal; [ring | apply IH; now injection H].
Qed.

Lemma reparametrize_zero : forall (mu sigma : tensor) (g : nat -> R),
  same_shape mu sigma ->
  (forall k, (k < length (concat sigma))%nat -> g k = 0%R) ->
  tadd mu (tmul sigma (fst (fill_like sigma g))) = mu.
Proof.
  unfold same_shape, tadd, tmul, tzip.
  induction mu as [|r mu IH]; intros [|s sigma] g H Hg; simpl in H; try discriminate; auto.
  injection H as Hr Hrest. rewrite fill_like_cons. cbn [fst zip_with concat] in *.
  rewrite length_app in Hg. f_equal.
  - rewrite draws_zero by (intros k Hk; apply Hg; lia).
    now apply reparametrize_row_zero.
  - apply IH; [assumption|]. intros k Hk. unfold advance. apply Hg. lia.
Qed.

(** X8. When the draws taken by the forward pass all are 0, the latent
    code is the mean and the reconstruction is the decoding of the mean:
    the spread plays no part. *)
Theorem forward_zero_noise (input_dim h_dim z_dim : nat)
  (m : VariationalAutoEncoder) (x : tensor) (w : world) :
  constructed input_dim h_dim z_dim m = true ->
  Forall (fun r => length r = input_dim) x ->
  (forall k, (k < length x * z_dim)%nat -> rng w k = 0%R) ->
  exists x_reconstructed mu sigma,
    encode m x = Ok (mu, sigma)
    /\ decode m mu = Ok x_reconstructed
    /\ fst (forward m x w) = Ok (x_reconstructed, mu, sigma).
Proof.
  intros Hm Hx Hg.
  destruct (encode_ok _ _ _ _ _ Hm Hx) as (mu & sigma & E).
  destruct (encode_shape _ _ _ _ _ _ _ Hm E) as (Lmu & Lsg & Rmu & Rsg).
  assert (Sms : same_shape mu sigma) by (apply (same_shape_rows z_dim); auto; lia).
  destruct (decode_ok _ _ _ _ _ Hm Rmu) as (xr & D & _).
  exists xr, mu, sigma. split; [assumption|]. split; [assumption|].
  rewrite (forward_eq _ _ _ _ w E). simpl.
  rewrite reparametrize_zero; [now rewrite D | assumption |].
  rewrite (concat_length_rows z_dim), Lsg by assumption. exact Hg.
Qed.

Lemma forward_zero_noise_witness :
  exists x_reconstructed mu sigma,
    encode tiny_model [[0%R; 0%R]] = Ok (mu, sigma)
    /\ decode tiny_model mu = Ok x_reconstructed
    /\ fst (forward tiny_model [[0%R; 0%R]]
              {| rng := fun k => match k with O => 0%R | S _ => 5%R end; sink := [] |})
       = Ok (x_reconstructed, mu, sigma).
Proof.
  apply (forward_zero_noise 2 1 1 tiny_model [[0%R; 0%R]]
           {| rng := fun k => match k with O => 0%R | S _ => 5%R end; sink := [] |});
    [reflexivity | repeat constructor |].
  intros k Hk. simpl in Hk. destruct k as [|k]; [reflexivity | lia].
Defined.

(** ** The pass of [train] and the size of the images *)

(** X9. The pass of [train] reshapes its batch to rows of [INPUT_DIM] =
    784 entries: on a batch one image of which has another count of
    entries it raises the shape error of [view], whatever the model,
    before any draw. *)
Theorem train_loss_wrong_image (m : VariationalAutoEncoder)
  (loss_fn : tensor -> tensor -> num) (alpha : R) (x : list vec) (w : world) :
  Exists (fun img => length img <> 784%nat) x ->
  train_loss m loss_fn alpha x w = (Raise RuntimeError, w).
Proof.
  intros Hx. unfold train_loss, mbind, lift, view_batch, INPUT_DIM.
  now rewrite forallb_length_false.
Qed.

Lemma train_loss_wrong_image_witness :
  train_loss mnist_model (fun _ _ => Finite 0) (1 / 2) [[0%R; 0%R]] (still_world 3)
  = (Raise RuntimeError, still_world 3).
Proof.
  apply (train_loss_wrong_image mnist_model (fun _ _ => Finite 0) (1 / 2)
           [[0%R; 0%R]] (still_world 3)).
  apply Exists_cons_hd. simpl. lia.
Defined.

(** X10. [train] reads the size of the images from the global
    [INPUT_DIM], not from the model: with a model built for another
    [input_dim], every batch that is not empty raises the shape error of
    the first layer, before any draw. *)
Theorem train_loss_other_input_dim (input_dim h_dim z_dim : nat)
  (m : VariationalAutoEncoder) (loss_fn : tensor -> tensor -> num) (alpha : R)
  (x : list vec) (w : world) :
  constructed input_dim h_dim z_dim m = true ->
  input_dim <> INPUT_DIM ->
  x <> [] ->
  Forall (fun img => length img = INPUT_DIM) x ->
  train_loss m loss_fn alpha x w = (Raise RuntimeError, w).
Proof.
  intros Hm Hd Hne Hx. unfold train_loss, mbind at 1, lift, view_batch.
  apply forallb_length_Forall in Hx as Hb. rewrite Hb.
  unfold mbind. rewrite (forward_raise m x RuntimeError w); [reflexivity|].
  apply encode_ill_shaped with input_dim h_dim z_dim; [assumption|].
  destruct x as [|img x]; [contradiction|]. inversion Hx; subst.
  apply Exists_cons_hd. congruence.
Qed.

Lemma train_loss_other_input_dim_witness :
  train_loss tiny_model (fun _ _ => Finite 0) (1 / 2) [flat_image 0] (still_world 3)
  = (Raise RuntimeError, still_world 3).
Proof.
  apply (train_loss_other_input_dim 2 1 1 tiny_model (fun _ _ => Finite 0) (1 / 2)
           [flat_image 0] (still_world 3));
    [reflexivity | discriminate | discriminate | repeat constructor].
Defined.

Lemma forward_world (m : VariationalAutoEncoder) (x mu sigma : tensor) (w : world) :
  encode m x = Ok (mu, sigma) ->
  snd (forward m x w) = {| rng := snd (fill_like sigma (rng w)); sink := sink w |}.
Proof.
  intros E. rewrite (forward_eq _ _ _ _ w E). simpl.
  destruct (decode m _); reflexivity.
Qed.

Lemma train_loss_world (m : VariationalAutoEncoder) (loss_fn : tensor -> tensor -> num)
  (alpha : R) (x : list vec) (w : world) :
  Forall (fun img => length img = INPUT_DIM) x ->
  snd (train_loss m loss_fn alpha x w) = snd (forward m x w).
Proof.
  intros Hx. unfold train_loss, mbind at 1, lift, view_batch.
  apply forallb_length_Forall in Hx as Hb. rewrite Hb.
  unfold mbind. destruct (forward m x w) as [[[[xr mu] sigma]|e] w1]; reflexivity.
Qed.

(** X11. On a batch of images of 784 entries, with a model built for
    them, the pass of [train] does not raise: it returns the mixture of
    [loss_fn] and [kl_div] on what [forward] returns, a reconstruction of
    the shape of the batch and a mean and a spread tensor of one shape;
    it writes nothing and takes [len(x) * z_dim] draws. *)
Theorem train_loss_total (h_dim z_dim : nat) (m : VariationalAutoEncoder)
  (loss_fn : tensor -> tensor -> num) (alpha : R) (x : list vec) (w : world) :
  constructed INPUT_DIM h_dim z_dim m = true ->
  Forall (fun img => length img = INPUT_DIM) x ->
  exists x_reconstructed mu sigma,
    fst (forward m x w) = Ok (x_reconstructed, mu, sigma)
    /\ same_shape mu sigma
    /\ fst (train_loss m loss_fn alpha x w)
       = Ok (loss alpha (loss_fn x_reconstructed x) (kl_div mu sigma))
    /\ sink (snd (train_loss m loss_fn alpha x w)) = sink w
    /\ (forall k, rng (snd (train_loss m loss_fn alpha x w)) k
                  = rng w (length x * z_dim + k)%nat).
Proof.
  intros Hm Hx.
  destruct (train_loss_ok h_dim z_dim m loss_fn alpha x w Hm Hx)
    as (xr & mu & sigma & F & Sms & L).
  exists xr, mu, sigma. repeat (split; [assumption|]).
  rewrite (train_loss_world _ _ _ _ _ Hx).
  destruct (encode_ok _ _ _ _ _ Hm Hx) as (mu' & sigma' & E).
  destruct (encode_shape _ _ _ _ _ _ _ Hm E) as (_ & Lsg & _ & Rsg).
  rewrite (forward_world _ _ _ _ w E). simpl. split; [reflexivity|].
  intros k. rewrite fill_like_rest, (concat_length_rows z_dim) by assumption.
  now rewrite Lsg.
Qed.

Lemma train_loss_total_witness :
  exists x_reconstructed mu sigma,
    fst (forward mnist_model [flat_image 0] (still_world 3))
    = Ok (x_reconstructed, mu, sigma)
    /\ same_shape mu sigma
    /\ fst (train_loss mnist_model (fun _ _ => Finite 0) (1 / 2) [flat_image 0]
              (still_world 3))
       = Ok (loss (1 / 2) ((fun _ _ => Finite 0) x_reconstructed [flat_image 0])
               (kl_div mu sigma))
    /\ sink (snd (train_loss mnist_model (fun _ _ => Finite 0) (1 / 2) [flat_image 0]
                    (still_world 3))) = sink (still_world 3)
    /\ (forall k, rng (snd (train_loss mnist_model (fun _ _ => Finite 0) (1 / 2)
                              [flat_image 0] (still_world 3))) k
                  = rng (still_world 3) (length [flat_image 0] * 1 + k)%nat).
Proof.
  apply (train_loss_total 1 1 mnist_model (fun _ _ => Finite 0) (1 / 2)
           [flat_image 0] (still_world 3));
    [reflexivity | repeat constructor].
Defined.

(* ===================================================================== *)
(** * Further properties of the exemplar scan                              *)
(* ===================================================================== *)

Lemma scan_prefix : forall {X : Type} (dataset : list (X * Z)) (len_labels idx : nat),
  (idx < len_labels)%nat ->
  scan dataset len_labels [] idx
  = firstn (len_labels - idx) (scan dataset (S len_labels) [] idx).
Proof.
  intros X. induction dataset as [|[x y] rest IH]; intros n idx H.
  - now rewrite firstn_nil.
  - rewrite !scan_cons.
    destruct (Z.eqb y (Z.of_nat idx)).
    + replace (n - idx)%nat with (S (n - S idx)) by lia. cbn [firstn]. f_equal.
      destruct (Nat.eqb_spec (S idx) n) as [<-|Hn].
      * rewrite Nat.sub_diag.
        destruct (Nat.eqb (S idx) (S (S idx))); now rewrite ?firstn_O.
      * destruct (Nat.eqb_spec (S idx) (S n)); [lia|]. apply IH. lia.
    + destruct (Nat.eqb_spec idx n); [lia|].
      destruct (Nat.eqb_spec idx (S n)); [lia|]. now apply IH.
Qed.

(** X12. Asking for one more label only adds to the exemplars: for
    [len_labels >= 1] the exemplars collected for [len_labels] labels are
    the first [len_labels] of those collected for [len_labels + 1]. *)
Theorem scan_one_more_label {X : Type} (dataset : list (X * Z)) (len_labels : nat) :
  (0 < len_labels)%nat ->
  scan dataset len_labels [] 0
  = firstn len_labels (scan dataset (S len_labels) [] 0).
Proof.
  intros H. rewrite (scan_prefix dataset len_labels 0 H). now rewrite Nat.sub_0_r.
Qed.

Lemma scan_one_more_label_witness :
  scan [(flat_image 1, 1%Z); (flat_image 2, 0%Z); (flat_image 3, 1%Z)] 1 [] 0
  = firstn 1 (scan [(flat_image 1, 1%Z); (flat_image 2, 0%Z); (flat_image 3, 1%Z)] 2 [] 0).
Proof.
  apply (scan_one_more_label
           [(flat_image 1, 1%Z); (flat_image 2, 0%Z); (flat_image 3, 1%Z)] 1).
  lia.
Defined.

(** X13. The scan chooses by the labels alone: changing the images of the
    stream by any function changes the exemplars by the same function,
    and the positions retained not at all. *)
Theorem scan_ignores_images {X Y : Type} (f : X -> Y)
  (dataset : list (X * Z)) (len_labels : nat) :
  scan (map (fun p => (f (fst p), snd p)) dataset) len_labels [] 0
  = map f (scan dataset len_labels [] 0)
  /\ scan_positions (map (fun p => (f (fst p), snd p)) dataset) len_labels
     = scan_positions dataset len_labels.
Proof.
  split; [exact (scan_map f dataset len_labels [] 0)|].
  rewrite !scan_positions_labels, map_map. reflexivity.
Qed.

(* ===================================================================== *)
(** * Further properties of [inference]                                    *)
(* ===================================================================== *)

(** ** The images written *)

Lemma chunks_Forall (P : R -> Prop) (n : nat) : forall (fuel : nat) (l : vec),
  Forall P l -> Forall (Forall P) (chunks fuel n l).
Proof.
  induction fuel as [|fuel IH]; intros l H; [constructor|].
  destruct l as [|a l]; [constructor|]. cbn [chunks].
  rewrite <- (firstn_skipn n (a :: l)) in H. apply Forall_app in H as [H1 H2].
  constructor; [assumption | now apply IH].
Qed.

Lemma chunks_lengths (n : nat) : forall (fuel k : nat) (l : vec),
  (0 < n)%nat -> length l = (k * n)%nat -> (length l <= fuel)%nat ->
  Forall (fun c => length c = n) (chunks fuel n l)
  /\ ((0 < k)%nat -> chunks fuel n l <> []).
Proof.
  induction fuel as [|fuel IH]; intros k l Hn Hl Hf.
  - split; [constructor|]. intros Hk. nia.
  - destruct l as [|a l].
    + split; [constructor|]. intros Hk. simpl in Hl. nia.
    + cbn [chunks]. destruct k as [|k]; [simpl in Hl; lia|].
      split; [|discriminate]. constructor.
      * rewrite length_firstn. rewrite Hl. nia.
      * apply (IH k).
        -- assumption.
        -- rewrite length_skipn, Hl. nia.
        -- rewrite length_skipn. lia.
Qed.

Lemma view_28_28_valid (P : R -> Prop) (out : tensor) (out' : list vec) :
  view_28_28 out = Ok out' -> Forall (Forall P) out ->
  out' <> [] /\ Forall (fun img => length img = 784%nat /\ Forall P img) out'.
Proof.
  unfold view_28_28. intros H HP.
  destruct (Nat.ltb 0 (length (concat out)) && Nat.eqb (length (concat out) mod 784) 0)
    eqn:C; [|discriminate].
  injection H as <-. apply andb_true_iff in C as [Cpos Cmod].
  apply Nat.ltb_lt in Cpos. apply Nat.eqb_eq in Cmod.
  pose proof (Nat.div_mod_eq (length (concat out)) 784) as D. rewrite Cmod in D.
  set (k := (length (concat out) / 784)%nat) in *.
  assert (Hl : length (concat out) = (k * 784)%nat) by lia.
  destruct (chunks_lengths 784 (length (concat out)) k (concat out)
              ltac:(lia) Hl (le_n _)) as (Hlen & Hne).
  split; [apply Hne; lia|].
  apply Forall_and; [assumption|]. apply chunks_Forall. now apply Forall_concat.
Qed.

(** ** What any run has written when it ends *)

Lemma for_each_appends {A : Type} (body : A -> M unit) (T : A -> list (Z * nat)) :
  (forall a r w w', body a w = (r, w') -> appends (T a) r w w') ->
  forall (xs : list A) (r : result unit) (w w' : world),
    for_each xs body w = (r, w') -> appends (flat_map T xs) r w w'.
Proof.
  intros Hbody. induction xs as [|x xs IH]; intros r w w' H; simpl in H.
  - unfold mret in H. injection H as <- <-. exists []. rewrite app_nil_r.
    repeat split; [constructor | exists []; reflexivity].
  - unfold mbind in H. destruct (body x w) as [[u1|e] w1] eqn:E.
    + destruct (Hbody _ _ _ _ E) as (new1 & S1 & V1 & _ & T1).
      destruct (IH _ _ _ H) as (new2 & S2 & V2 & [rest P2] & T2).
      exists (new1 ++ new2). unfold tags in *. simpl.
      rewrite map_app, (T1 u1 eq_refl). repeat split.
      * now rewrite S2, S1, app_assoc.
      * now apply Forall_app.
      * exists rest. now rewrite P2, app_assoc.
      * intros u ->. now rewrite (T2 u eq_refl).
    + injection H as <- <-.
      destruct (Hbody _ _ _ _ E) as (new1 & S1 & V1 & [rest P1] & _).
      exists new1. repeat split; [assumption | assumption | | discriminate].
      exists (rest ++ flat_map T xs). simpl. now rewrite P1, app_assoc.
Qed.

Lemma appends_nothing (T : list (Z * nat)) (e : exn) (w : world) :
  appends T (Raise e) w w.
Proof.
  exists []. rewrite app_nil_r.
  repeat split; [constructor | exists T; reflexivity | discriminate].
Qed.

Lemma generate_example_appends (m : VariationalAutoEncoder) (folder : string) (label : Z)
  (mu sigma : tensor) (example : nat) (r : result unit) (w w' : world) :
  generate_example m folder label mu sigma example w = (r, w') ->
  appends [(label, example)] r w w'.
Proof.
  unfold generate_example, mbind, randn_like, lift, save_image.
  destruct (fill_like sigma (rng w)) as [eps g'].
  destruct (decode m _) as [out|e] eqn:D.
  - destruct (view_28_28 out) as [out'|e] eqn:V.
    + intros [= <- <-]. simpl.
      eexists [_]. repeat split.
      * constructor; [|constructor].
        destruct (view_28_28_valid _ _ _ V (decode_entries _ _ _ D)) as (Hne & Hall).
        split; assumption.
      * exists []. reflexivity.
    + intros [= <- <-]. simpl. exists []. rewrite app_nil_r.
      repeat split; [constructor | eexists; reflexivity | discriminate].
  - intros [= <- <-]. simpl. exists []. rewrite app_nil_r.
    repeat split; [constructor | eexists; reflexivity | discriminate].
Qed.

Lemma inference_label_appends (m : VariationalAutoEncoder) (len_labels : nat)
  (folder : string) (dataset : list (vec * Z)) (n_examples : nat) (label : Z)
  (r : result unit) (w w' : world) :
  inference_label m len_labels folder dataset n_examples label w = (r, w') ->
  appends (map (fun example => (label, example)) (seq 0 n_examples)) r w w'.
Proof.
  unfold inference_label, mbind at 1 2, lift.
  destruct (rmap _ (seq 0 len_labels)) as [encodings_digit|e];
    [|intros [= <- <-]; apply appends_nothing].
  destruct (getitem encodings_digit label) as [[mu sigma]|e];
    [|intros [= <- <-]; apply appends_nothing].
  intros H. rewrite <- flat_map_singleton.
  eapply for_each_appends; [|exact H].
  intros example r0 w0 w0'. apply generate_example_appends.
Qed.

Lemma inference_appends (m : VariationalAutoEncoder) (labels : list Z)
  (folder : string) (dataset : list (vec * Z)) (n_examples : nat) (w : world) :
  appends (expected_tags labels n_examples)
    (fst (inference m labels folder dataset n_examples w)) w
    (snd (inference m labels folder dataset n_examples w)).
Proof.
  destruct (inference m labels folder dataset n_examples w) as [r w'] eqn:E.
  unfold inference in E. simpl.
  exact (for_each_appends _ _
           (inference_label_appends m (length labels) folder dataset n_examples)
           labels r w w' E).
Qed.



(** ** Runs on a stream that has the exemplars *)

Lemma rmap_length {A B : Type} (f : A -> result B) : forall (xs : list A) (ys : list B),
  rmap f xs = Ok ys -> length ys = length xs.
Proof.
  induction xs as [|x xs IH]; intros ys; simpl.
  - now intros [= <-].
  - destruct (f x) as [y|]; simpl; [|discriminate].
    destruct (rmap f xs) as [ys'|]; simpl; [|discriminate].
    intros [= <-]. simpl. f_equal. now apply IH.
Qed.

Lemma rmap_Forall {A B : Type} (f : A -> result B) (P : B -> Prop) :
  forall (xs : list A) (ys : list B),
    (forall x y, In x xs -> f x = Ok y -> P y) ->
    rmap f xs = Ok ys -> Forall P ys.
Proof.
  induction xs as [|x xs IH]; intros ys HP; simpl.
  - intros [= <-]. constructor.
  - destruct (f x) as [y|] eqn:E; simpl; [|discriminate].
    destruct (rmap f xs) as [ys'|]; simpl; [|discriminate].
    intros [= <-]. constructor.
    + apply (HP x y); [now left | assumption].
    + apply IH; [|reflexivity]. intros x' y' Hx'. apply HP. now right.
Qed.

Lemma getitem_In {A : Type} (l : list A) (i : Z) (a : A) :
  getitem l i = Ok a -> In a l.
Proof.
  unfold getitem.
  destruct (Z.leb 0 _ && Z.ltb _ _); [|discriminate].
  destruct (nth_error l _) as [a'|] eqn:E; [|discriminate].
  intros [= <-]. eapply nth_error_In; eassumption.
Qed.

Lemma encodings_shaped (h_dim z_dim : nat) (m : VariationalAutoEncoder)
  (images : list vec) (len_labels : nat) (encodings_digit : list (tensor * tensor)) :
  constructed 784 h_dim z_dim m = true ->
  Forall (fun x => length x = 784%nat) images ->
  rmap (encode_exemplar m images) (seq 0 len_labels) = Ok encodings_digit ->
  Forall (exemplar_shaped z_dim) encodings_digit.
Proof.
  intros Hm Himg. apply rmap_Forall. intros d enc _ Hd.
  assert (Hx : exists x, nth_error images d = Some x).
  { unfold encode_exemplar in Hd. rewrite getitem_nat in Hd.
    destruct (nth_error images d) as [x|]; [eauto | discriminate]. }
  destruct Hx as [x Hx].
  assert (Hlen : length x = 784%nat)
    by (rewrite Forall_forall in Himg; eapply Himg, nth_error_In; eassumption).
  destruct (encode_exemplar_ok h_dim z_dim m images d x Hm Hx Hlen)
    as (mu & sigma & Hok & _ & Hshape).
  rewrite Hd in Hok. injection Hok as ->. exact Hshape.
Qed.

Lemma generate_example_rng (m : VariationalAutoEncoder) (folder : string) (label : Z)
  (mu sigma : tensor) (example : nat) (r : result unit) (w w' : world) :
  generate_example m folder label mu sigma example w = (r, w') ->
  forall k, rng w' k = rng w (length (concat sigma) + k)%nat.
Proof.
  unfold generate_example, mbind, randn_like, lift, save_image.
  pose proof (fill_like_rest sigma (rng w)) as Hr.
  destruct (fill_like sigma (rng w)) as [eps g']. simpl in Hr.
  destruct (decode m _) as [out|e]; [|intros [= <- <-]; exact Hr].
  destruct (view_28_28 out) as [out'|e]; intros [= <- <-]; exact Hr.
Qed.

(** A loop each turn of which takes [c] draws takes [c] draws per turn. *)
Lemma for_each_rng {A : Type} (body : A -> M unit) (c : nat) :
  (forall a u w w', body a w = (Ok u, w') -> forall k, rng w' k = rng w (c + k)%nat) ->
  forall (xs : list A) (u : unit) (w w' : world),
    for_each xs body w = (Ok u, w') ->
    forall k, rng w' k = rng w (length xs * c + k)%nat.
Proof.
  intros Hbody. induction xs as [|x xs IH]; intros u w w' H k; simpl in H.
  - unfold mret in H. now injection H as _ <-.
  - unfold mbind in H. destruct (body x w) as [[u1|e] w1] eqn:E; [|discriminate].
    rewrite (IH _ _ _ H), (Hbody _ _ _ _ E). apply f_equal. simpl. lia.
Qed.

Lemma inference_label_rng (h_dim z_dim : nat) (m : VariationalAutoEncoder)
  (len_labels : nat) (folder : string) (dataset : list (vec * Z)) (n_examples : nat)
  (label : Z) (u : unit) (w w' : world) :
  constructed 784 h_dim z_dim m = true ->
  Forall (fun x => length x = 784%nat) (map fst dataset) ->
  inference_label m len_labels folder dataset n_examples label w = (Ok u, w') ->
  forall k, rng w' k = rng w (n_examples * z_dim + k)%nat.
Proof.
  intros Hm Himg. unfold inference_label, mbind at 1 2, lift.
  destruct (rmap _ (seq 0 len_labels)) as [encodings_digit|e] eqn:Hencs; [|discriminate].
  destruct (getitem encodings_digit label) as [[mu sigma]|e] eqn:Hget; [|discriminate].
  intros H k.
  pose proof (encodings_shaped h_dim z_dim m _ _ _ Hm
                (scan_images_784 dataset len_labels Himg) Hencs) as Hall.
  rewrite Forall_forall in Hall.
  destruct (Hall _ (getitem_In _ _ _ Hget)) as (_ & Ls & _ & Rs). simpl in Ls, Rs.
  assert (Hb : forall example u0 w0 w0',
             generate_example m folder label mu sigma example w0 = (Ok u0, w0') ->
             forall k0, rng w0' k0 = rng w0 (z_dim + k0)%nat).
  { intros example u0 w0 w0' E k0.
    rewrite (generate_example_rng _ _ _ _ _ _ _ _ _ E).
    now rewrite (concat_length_rows z_dim), Ls, Nat.mul_1_l. }
  pose proof (for_each_rng _ z_dim Hb (seq 0 n_examples) u w w' H k) as R.
  now rewrite length_seq in R.
Qed.



(** X17. A run of [inference] that ends without exception, with a model
    built for images of 784 pixels on a stream of such images, has taken
    [z_dim] draws for each file it wrote:
    [len(labels) * n_examples * z_dim] draws in all. *)
Theorem inference_draws (h_dim z_dim : nat) (m : VariationalAutoEncoder)
  (labels : list Z) (folder : string) (dataset : list (vec * Z))
  (n_examples : nat) (w : world) :
  constructed 784 h_dim z_dim m = true ->
  Forall (fun x => length x = 784%nat) (map fst dataset) ->
  fst (inference m labels folder dataset n_examples w) = Ok tt ->
  forall k, rng (snd (inference m labels folder dataset n_examples w)) k
            = rng w (length labels * (n_examples * z_dim) + k)%nat.
Proof.
  intros Hm Himg.
  destruct (inference m labels folder dataset n_examples w) as [r w'] eqn:E.
  simpl. intros ->. unfold inference in E.
  apply (for_each_rng (inference_label m (length labels) folder dataset n_examples)
           (n_examples * z_dim)) with (u := tt); [|exact E].
  intros label u w0 w0'. now apply inference_label_rng with h_dim.
Qed.

Lemma inference_draws_witness :
  rng (snd (inference mnist_model [0%Z; 1%Z] "generated"
              [(flat_image 0, 0%Z); (flat_image 1, 1%Z)] 3 (still_world 0))) 0
  = rng (still_world 0) (length [0%Z; 1%Z] * (3 * 1) + 0)%nat.
Proof.
  apply (inference_draws 1 1 mnist_model [0%Z; 1%Z] "generated"
           [(flat_image 0, 0%Z); (flat_image 1, 1%Z)] 3 (still_world 0));
    [reflexivity | repeat constructor | reflexivity].
Defined.

(** ** Requested labels out of range *)

Lemma for_each_app {A : Type} (body : A -> M unit) : forall (xs ys : list A) (w : world),
  for_each (xs ++ ys) body w =
  match for_each xs body w with
  | (Ok _, w1) => for_each ys body w1
  | (Raise e, w1) => (Raise e, w1)
  end.
Proof.
  induction xs as [|x xs IH]; intros ys w; simpl; [reflexivity|].
  unfold mbind. destruct (body x w) as [[u|e] w1]; [apply IH | reflexivity].
Qed.

Lemma getitem_out_of_range {A : Type} (l : list A) (i : Z) :
  (Z.of_nat (length l) <= i \/ i < - Z.of_nat (length l))%Z ->
  getitem l i = Raise IndexError.
Proof.
  intros H. unfold getitem.
  destruct (Z.ltb_spec i 0).
  - destruct (Z.leb_spec 0 (i + Z.of_nat (length l))); [lia | reflexivity].
  - destruct (Z.ltb_spec i (Z.of_nat (length l))); [lia|].
    now rewrite andb_false_r.
Qed.

Lemma getitem_negative {A : Type} (l : list A) (i : Z) :
  (- Z.of_nat (length l) <= i < 0)%Z ->
  getitem l i = getitem l (i + Z.of_nat (length l)).
Proof.
  intros H. unfold getitem.
  destruct (Z.ltb_spec i 0); [|lia].
  destruct (Z.ltb_spec (i + Z.of_nat (length l)) 0); [lia | reflexivity].
Qed.

Lemma encodings_ok (h_dim z_dim : nat) (m : VariationalAutoEncoder)
  (images : list vec) (len_labels : nat) :
  constructed 784 h_dim z_dim m = true ->
  Forall (fun x => length x = 784%nat) images ->
  (len_labels <= length images)%nat ->
  exists encodings_digit,
    rmap (encode_exemplar m images) (seq 0 len_labels) = Ok encodings_digit.
Proof.
  intros Hm Himg Hn. apply rmap_all_Ok. intros d Hd. apply in_seq in Hd.
  destruct (nth_error images d) as [x|] eqn:E; [|apply nth_error_None in E; lia].
  assert (Hx : length x = 784%nat)
    by (rewrite Forall_forall in Himg; eapply Himg, nth_error_In; eassumption).
  destruct (encode_exemplar_ok h_dim z_dim m images d x Hm E Hx) as (mu & sigma & Hok & _).
  eauto.
Qed.

Lemma inference_label_ok (h_dim z_dim : nat) (m : VariationalAutoEncoder)
  (len_labels : nat) (folder : string) (dataset : list (vec * Z)) (n_examples : nat)
  (label : Z) (w : world) :
  constructed 784 h_dim z_dim m = true ->
  Forall (fun x => length x = 784%nat) (map fst dataset) ->
  (len_labels <= length (scan dataset len_labels [] 0))%nat ->
  (0 <= label < Z.of_nat len_labels)%Z ->
  exists w', inference_label m len_labels folder dataset n_examples label w = (Ok tt, w').
Proof.
  intros Hm Himg Hscan Hl.
  pose proof (scan_images_784 dataset len_labels Himg) as Hall.
  destruct (encodings_ok h_dim z_dim m _ len_labels Hm Hall Hscan) as [encs Hencs].
  pose proof (encodings_shaped h_dim z_dim m _ _ _ Hm Hall Hencs) as Hshape.
  destruct (getitem_encodings m _ len_labels encs label Hencs Hl) as (x & Hx & Hg).
  assert (Hget : exists enc, getitem encs label = Ok enc).
  { rewrite <- (Z2Nat.id label) by lia. rewrite getitem_nat.
    destruct (nth_error encs (Z.to_nat label)) eqn:E; [eauto|].
    apply nth_error_None in E. apply rmap_length in Hencs.
    rewrite length_seq in Hencs. lia. }
  destruct Hget as [[mu sigma] Hget].
  rewrite Forall_forall in Hshape.
  destruct (Hshape _ (getitem_In _ _ _ Hget)) as (Lm & Ls & Rm & Rs). simpl in *.
  unfold inference_label, mbind at 1 2, lift. rewrite Hencs, Hget.
  apply for_each_ok. intros example _ w1.
  now apply generate_example_ok with (h_dim := h_dim) (z_dim := z_dim).
Qed.

Lemma chain_scan_length (dataset : list (vec * Z)) (len_labels : nat) :
  (exists qs, chain (map snd dataset) len_labels qs) ->
  (len_labels <= length (scan dataset len_labels [] 0))%nat.
Proof.
  intros [qs Hc]. destruct len_labels as [|n]; [lia|].
  rewrite <- scan_positions_length, scan_positions_labels.
  rewrite (positions_complete (map snd dataset) (S n) 0); [lia | lia |].
  exists qs. now rewrite Nat.sub_0_r.
Qed.

(** X18. A requested label that is no subscript of the list of encodings
    ([label >= len(labels)] or [label < -len(labels)]) ends the run with
    the [IndexError] of [encodings_digit[label]]: the files of the labels
    requested before it are written, in order, and nothing else; the
    labels after it are not handled. *)
Theorem inference_label_out_of_range (h_dim z_dim : nat) (m : VariationalAutoEncoder)
  (pre : list Z) (bad : Z) (post : list Z) (folder : string)
  (dataset : list (vec * Z)) (n_examples : nat) (w : world) :
  constructed 784 h_dim z_dim m = true ->
  Forall (fun x => length x = 784%nat) (map fst dataset) ->
  (exists qs, chain (map snd dataset) (length (pre ++ bad :: post)) qs) ->
  Forall (fun label => 0 <= label < Z.of_nat (length (pre ++ bad :: post)))%Z pre ->
  (Z.of_nat (length (pre ++ bad :: post)) <= bad
   \/ bad < - Z.of_nat (length (pre ++ bad :: post)))%Z ->
  fst (inference m (pre ++ bad :: post) folder dataset n_examples w) = Raise IndexError
  /\ exists new,
       sink (snd (inference m (pre ++ bad :: post) folder dataset n_examples w))
       = sink w ++ new
       /\ tags new = expected_tags pre n_examples.
Proof.
  intros Hm Himg Hc Hpre Hbad.
  set (n := length (pre ++ bad :: post)) in *.
  pose proof (chain_scan_length dataset n Hc) as Hscan.
  pose proof (scan_images_784 dataset n Himg) as Hall.
  destruct (for_each_ok (inference_label m n folder dataset n_examples) pre) with (w := w)
    as [w1 E1].
  { intros label Hin w0. rewrite Forall_forall in Hpre.
    now apply inference_label_ok with h_dim z_dim; auto. }
  assert (E2 : inference_label m n folder dataset n_examples bad w1 = (Raise IndexError, w1)).
  { destruct (encodings_ok h_dim z_dim m _ n Hm Hall Hscan) as [encs Hencs].
    unfold inference_label, mbind at 1 2, lift. rewrite Hencs.
    rewrite getitem_out_of_range; [reflexivity|].
    apply rmap_length in Hencs. rewrite length_seq in Hencs. now rewrite Hencs. }
  unfold inference. fold n. rewrite for_each_app, E1.
  rewrite (for_each_raise _ bad post IndexError w1 w1 E2). simpl.
  split; [reflexivity|].
  destruct (for_each_appends _ _
              (inference_label_appends m n folder dataset n_examples)
              pre (Ok tt) w w1 E1) as (new & S & _ & _ & T).
  exists new. split; [assumption|]. apply (T tt eq_refl).
Qed.

Lemma inference_label_out_of_range_witness :
  fst (inference mnist_model ([0%Z] ++ 5%Z :: []) "generated"
         [(flat_image 0, 0%Z); (flat_image 1, 1%Z)] 2 (still_world 0))
  = Raise IndexError
  /\ exists new,
       sink (snd (inference mnist_model ([0%Z] ++ 5%Z :: []) "generated"
                    [(flat_image 0, 0%Z); (flat_image 1, 1%Z)] 2 (still_world 0)))
       = sink (still_world 0) ++ new
       /\ tags new = expected_tags [0%Z] 2.
Proof.
  apply (inference_label_out_of_range 1 1 mnist_model [0%Z] 5%Z [] "generated"
           [(flat_image 0, 0%Z); (flat_image 1, 1%Z)] 2 (still_world 0)).
  - reflexivity.
  - repeat constructor.
  - exists [0%nat; 1%nat]. split; [reflexivity|]. split.
    + repeat constructor.
    + intros [|[|k]] Hk; [reflexivity | reflexivity | simpl in Hk; lia].
  - repeat constructor; simpl; lia.
  - left. simpl. lia.
Defined.

(** X19. A negative requested label counts from the end, as every Python
    subscript does: for [-len(labels) <= label < 0] the encoding selected
    by [encodings_digit[label]] is that of the exemplar number
    [len(labels) + label], an image whose label in the stream is
    [len(labels) + label] and not [label]. *)
Theorem negative_label_wraps (m : VariationalAutoEncoder) (dataset : list (vec * Z))
  (len_labels : nat) (encodings_digit : list (tensor * tensor)) (label : Z) :
  rmap (encode_exemplar m (scan dataset len_labels [] 0)) (seq 0 len_labels)
  = Ok encodings_digit ->
  (- Z.of_nat len_labels <= label < 0)%Z ->
  exists x,
    nth_error (scan dataset len_labels [] 0) (Z.to_nat (label + Z.of_nat len_labels))
    = Some x
    /\ nth_error (map snd dataset)
         (nth (Z.to_nat (label + Z.of_nat len_labels))
              (scan_positions dataset len_labels) O)
       = Some (label + Z.of_nat len_labels)%Z
    /\ getitem encodings_digit label = (v <- view_1 784 x ;; encode m v)%res.
Proof.
  intros Hr Hl.
  assert (Hlen : length encodings_digit = len_labels)
    by (apply rmap_length in Hr; now rewrite length_seq in Hr).
  rewrite getitem_negative by (rewrite Hlen; exact Hl). rewrite Hlen.
  assert (Hl' : (0 <= label + Z.of_nat len_labels < Z.of_nat len_labels)%Z) by lia.
  destruct (getitem_encodings _ _ _ _ _ Hr Hl') as (x & Hx & Hg).
  exists x. split; [assumption|]. split; [|assumption].
  assert (Hk : (Z.to_nat (label + Z.of_nat len_labels)
                < length (scan_positions dataset len_labels))%nat).
  { rewrite scan_positions_length. apply nth_error_Some. congruence. }
  rewrite scan_positions_labels in *.
  rewrite (positions_labels _ _ 0 _ Hk). simpl. f_equal. lia.
Qed.

Lemma negative_label_wraps_witness :
  exists x,
    nth_error (scan [(flat_image 0, 0%Z); (flat_image 1, 1%Z)] 2 [] 0)
      (Z.to_nat (-1 + Z.of_nat 2))
    = Some x
    /\ nth_error (map snd [(flat_image 0, 0%Z); (flat_image 1, 1%Z)])
         (nth (Z.to_nat (-1 + Z.of_nat 2))
              (scan_positions [(flat_image 0, 0%Z); (flat_image 1, 1%Z)] 2) O)
       = Some (-1 + Z.of_nat 2)%Z
    /\ getitem
         [ (map (affine (hid_2mu mnist_model))
              (relu (map (affine (img_2hid mnist_model)) [flat_image 0])),
            map (affine (hid_2sigma mnist_model))
              (relu (map (affine (img_2hid mnist_model)) [flat_image 0])));
           (map (affine (hid_2mu mnist_model))
              (relu (map (affine (img_2hid mnist_model)) [flat_image 1])),
            map (affine (hid_2sigma mnist_model))
              (relu (map (affine (img_2hid mnist_model)) [flat_image 1]))) ]
         (-1)
       = (v <- view_1 784 x ;; encode mnist_model v)%res.
Proof.
  apply (negative_label_wraps mnist_model
           [(flat_image 0, 0%Z); (flat_image 1, 1%Z)] 2).
  - reflexivity.
  - lia.
Defined.

(** ** The 784 pixels written into [inference] *)

Lemma scan_nonempty {X : Type} : forall (dataset : list (X * Z)) (len_labels : nat),
  (0 < len_labels)%nat -> In 0%Z (map snd dataset) ->
  exists x rest, scan dataset len_labels [] 0 = x :: rest.
Proof.
  induction dataset as [|[x y] rest IH]; intros n Hn Hin; [destruct Hin|].
  rewrite scan_cons. destruct (Z.eqb_spec y (Z.of_nat 0)) as [->|Hne].
  - eauto.
  - destruct (Nat.eqb_spec 0 n); [lia|].
    apply IH; [assumption|]. destruct Hin as [Hy|Hin]; [|assumption].
    simpl in Hy, Hne. congruence.
Qed.

(** X20. [inference] reshapes every exemplar to 784 entries, whatever the
    model: with a model built for another [input_dim], a run for at least
    one label on a stream that holds the label 0 raises a shape error
    while it encodes the first exemplar, before any draw and any write. *)
Theorem inference_other_input_dim (input_dim h_dim z_dim : nat)
  (m : VariationalAutoEncoder) (labels : list Z) (folder : string)
  (dataset : list (vec * Z)) (n_examples : nat) (w : world) :
  constructed input_dim h_dim z_dim m = true ->
  input_dim <> 784%nat ->
  labels <> [] ->
  In 0%Z (map snd dataset) ->
  inference m labels folder dataset n_examples w = (Raise RuntimeError, w).
Proof.
  intros Hm Hd Hne Hin. destruct labels as [|label labels]; [contradiction|].
  unfold inference. apply for_each_raise, inference_label_raise.
  destruct (scan_nonempty dataset (length (label :: labels)) ltac:(simpl; lia) Hin)
    as (x & rest & Es).
  rewrite Es. cbn [length seq rmap].
  assert (E : encode_exemplar m (x :: rest) 0 = Raise RuntimeError).
  { unfold encode_exemplar. rewrite getitem_nat. cbn [nth_error rbind].
    unfold view_1. destruct (Nat.eqb_spec (length x) 784) as [Hx|Hx]; [|reflexivity].
    cbn [rbind]. apply encode_ill_shaped with input_dim h_dim z_dim; [assumption|].
    apply Exists_cons_hd. congruence. }
  now rewrite E.
Qed.

Lemma inference_other_input_dim_witness :
  inference tiny_model [0%Z] "generated" [(flat_image 0, 0%Z)] 1 (still_world 0)
  = (Raise RuntimeError, still_world 0).
Proof.
  apply (inference_other_input_dim 2 1 1 tiny_model [0%Z] "generated"
           [(flat_image 0, 0%Z)] 1 (still_world 0));
    [reflexivity | discriminate | discriminate | left; reflexivity].
Defined.

(** ** Files written twice *)

Lemma expected_tags_In (labels : list Z) (n_examples : nat) (t : Z * nat) :
  In t (expected_tags labels n_examples) -> In (fst t) labels.
Proof.
  unfold expected_tags. intros H. apply in_flat_map in H as (label & Hl & Ht).
  apply in_map_iff in Ht as (e & <- & _). exact Hl.
Qed.

Lemma expected_tags_NoDup (labels : list Z) (n_examples : nat) :
  NoDup labels -> NoDup (expected_tags labels n_examples).
Proof.
  unfold expected_tags. induction 1 as [|label labels Hnot Hnd IH]; [constructor|].
  cbn [flat_map]. apply NoDup_app.
  - apply NoDup_map_NoDup_ForallPairs; [|apply seq_NoDup].
    intros a b _ _ E. now injection E.
  - exact IH.
  - intros t Ht Hin. apply in_map_iff in Ht as (e & <- & _).
    apply (expected_tags_In labels n_examples) in Hin. contradiction.
Qed.

(** X21. When the requested labels are pairwise distinct, a run of
    [inference] that ends without exception has written no tag
    [(label, example)] twice: no file is overwritten. *)
Theorem inference_distinct_tags (m : VariationalAutoEncoder) (labels : list Z)
  (folder : string) (dataset : list (vec * Z)) (n_examples : nat) (w : world) :
  NoDup labels ->
  fst (inference m labels folder dataset n_examples w) = Ok tt ->
  exists new,
    sink (snd (inference m labels folder dataset n_examples w)) = sink w ++ new
    /\ NoDup (tags new).
Proof.
  intros Hnd Hok.
  destruct (inference_appends m labels folder dataset n_examples w)
    as (new & S & _ & _ & T).
  exists new. split; [assumption|].
  rewrite (T tt Hok). now apply expected_tags_NoDup.
Qed.

Lemma inference_distinct_tags_witness :
  exists new,
    sink (snd (inference mnist_model [0%Z; 1%Z] "generated"
                 [(flat_image 0, 0%Z); (flat_image 1, 1%Z)] 3 (still_world 0)))
    = sink (still_world 0) ++ new
    /\ NoDup (tags new).
Proof.
  apply (inference_distinct_tags mnist_model [0%Z; 1%Z] "generated"
           [(flat_image 0, 0%Z); (flat_image 1, 1%Z)] 3 (still_world 0)).
  - repeat constructor; simpl; intuition discriminate.
  - reflexivity.
Defined.

(** ** The images of a run, draw by draw *)

Lemma generate_example_generated (m : VariationalAutoEncoder) (folder : string)
  (label : Z) (mu sigma : tensor) (example : nat) (g : nat -> R) (c : nat)
  (u : unit) (w w' : world) :
  (forall k, rng w k = g (c + k)%nat) ->
  generate_example m folder label mu sigma example w = (Ok u, w') ->
  exists img,
    sink w' = sink w ++ [ {| file_folder := folder; file_label := label;
                             file_example := example; file_image := img |} ]
    /\ generated m mu sigma g c = Ok img.
Proof.
  intros Hg.
  pose proof (fill_like_ext sigma (rng w) (advance c g) (fun k _ => Hg k)) as Eeps.
  unfold generate_example, generated, mbind, randn_like, lift, save_image.
  rewrite <- Eeps. destruct (fill_like sigma (rng w)) as [eps g']. cbn [fst].
  destruct (decode m _) as [out|]; [|discriminate]. cbn [rbind].
  destruct (view_28_28 out) as [out'|]; [|discriminate].
  intros [= _ <-]. simpl. eauto.
Qed.

Lemma examples_generated (m : VariationalAutoEncoder) (folder : string) (label : Z)
  (mu sigma : tensor) (g : nat -> R) (z_dim : nat) :
  length (concat sigma) = z_dim ->
  forall (len a c : nat) (u : unit) (w w' : world),
    (forall k, rng w k = g (c + k)%nat) ->
    for_each (seq a len) (generate_example m folder label mu sigma) w = (Ok u, w') ->
    exists new,
      sink w' = sink w ++ new
      /\ length new = len
      /\ (forall j, (j < len)%nat ->
            exists img,
              nth_error new j
              = Some {| file_folder := folder; file_label := label;
                        file_example := (a + j)%nat; file_image := img |}
              /\ generated m mu sigma g (c + j * z_dim) = Ok img)
      /\ (forall k, rng w' k = g (c + len * z_dim + k)%nat).
Proof.
  intros Hz. induction len as [|len IH]; intros a c u w w' Hg H; simpl in H.
  - unfold mret in H. injection H as _ <-. exists []. rewrite app_nil_r.
    repeat split; [intros j Hj; lia|].
    intros k. rewrite Hg. apply f_equal. lia.
  - unfold mbind in H.
    destruct (generate_example m folder label mu sigma a w) as [[u1|e] w1] eqn:E;
      [|discriminate].
    destruct (generate_example_generated _ _ _ _ _ _ g c _ _ _ Hg E) as (img & S1 & G1).
    assert (Hg1 : forall k, rng w1 k = g (c + z_dim + k)%nat).
    { intros k. rewrite (generate_example_rng _ _ _ _ _ _ _ _ _ E), Hz, Hg.
      apply f_equal. lia. }
    destruct (IH (S a) (c + z_dim)%nat u w1 w' Hg1 H) as (new & S2 & L2 & N2 & R2).
    eexists (_ :: new). split; [rewrite S2, S1, <- app_assoc; reflexivity|].
    split; [simpl; now rewrite L2|]. split.
    + intros [|j] Hj.
      * exists img. rewrite Nat.add_0_r, Nat.mul_0_l, Nat.add_0_r. auto.
      * destruct (N2 j ltac:(lia)) as (img' & Hn & Hgen). exists img'. cbn [nth_error].
        replace (a + S j)%nat with (S a + j)%nat by lia.
        replace (c + S j * z_dim)%nat with (c + z_dim + j * z_dim)%nat by lia. auto.
    + intros k. rewrite R2. apply f_equal. lia.
Qed.

Lemma labels_generated (h_dim z_dim : nat) (m : VariationalAutoEncoder)
  (len_labels : nat) (folder : string) (dataset : list (vec * Z)) (n_examples : nat)
  (encodings_digit : list (tensor * tensor)) (g : nat -> R) :
  rmap (encode_exemplar m (scan dataset len_labels [] 0)) (seq 0 len_labels)
  = Ok encodings_digit ->
  Forall (exemplar_shaped z_dim) encodings_digit ->
  forall (labels : list Z) (c : nat) (u : unit) (w w' : world),
    (forall k, rng w k = g (c + k)%nat) ->
    for_each labels (inference_label m len_labels folder dataset n_examples) w = (Ok u, w') ->
    exists new,
      sink w' = sink w ++ new
      /\ length new = (length labels * n_examples)%nat
      /\ (forall i label example,
            nth_error labels i = Some label -> (example < n_examples)%nat ->
            exists mu sigma img,
              getitem encodings_digit label = Ok (mu, sigma)
              /\ nth_error new (i * n_examples + example)
                 = Some {| file_folder := folder; file_label := label;
                           file_example := example; file_image := img |}
              /\ generated m mu sigma g (c + (i * n_examples + example) * z_dim) = Ok img)
      /\ (forall k, rng w' k = g (c + length labels * n_examples * z_dim + k)%nat).
Proof.
  intros Hencs Hshape. induction labels as [|label labels IH]; intros c u w w' Hg H.
  - simpl in H. unfold mret in H. injection H as _ <-. exists []. rewrite app_nil_r.
    repeat split.
    + intros [|i] label example Hi; discriminate.
    + intros k. rewrite Hg. apply f_equal. simpl. lia.
  - simpl in H. unfold mbind in H.
    destruct (inference_label m len_labels folder dataset n_examples label w)
      as [[u1|e] w1] eqn:E; [|discriminate].
    unfold inference_label, mbind at 1 2, lift in E. rewrite Hencs in E.
    destruct (getitem encodings_digit label) as [[mu sigma]|e] eqn:Hget; [|discriminate].
    rewrite Forall_forall in Hshape.
    destruct (Hshape _ (getitem_In _ _ _ Hget)) as (_ & Ls & _ & Rs). simpl in Ls, Rs.
    assert (Hz : length (concat sigma) = z_dim)
      by (rewrite (concat_length_rows z_dim), Ls by assumption; lia).
    destruct (examples_generated m folder label mu sigma g z_dim Hz
                n_examples 0 c u1 w w1 Hg E) as (new1 & S1 & L1 & N1 & R1).
    rewrite <- Forall_forall in Hshape.
    destruct (IH (c + n_examples * z_dim)%nat u w1 w' R1 H) as (new2 & S2 & L2 & N2 & R2).
    exists (new1 ++ new2). split; [rewrite S2, S1, app_assoc; reflexivity|].
    split; [rewrite length_app, L1, L2; simpl; lia|]. split.
    + intros [|i] label' example Hi He.
      * injection Hi as <-. destruct (N1 example He) as (img & Hn & Hgen).
        exists mu, sigma, img. split; [assumption|].
        rewrite Nat.mul_0_l, !Nat.add_0_l. split; [|assumption].
        rewrite nth_error_app1 by lia. exact Hn.
      * destruct (N2 i label' example Hi He) as (mu' & sigma' & img & Hg' & Hn & Hgen).
        exists mu', sigma', img. split; [assumption|]. split.
        -- rewrite nth_error_app2 by (rewrite L1; simpl; lia).
           rewrite L1. replace (S i * n_examples + example - n_examples)%nat
             with (i * n_examples + example)%nat by (simpl; lia). exact Hn.
        -- replace (c + (S i * n_examples + example) * z_dim)%nat
             with (c + n_examples * z_dim + (i * n_examples + example) * z_dim)%nat
             by (simpl; lia). exact Hgen.
    + intros k. rewrite R2. apply f_equal. simpl. lia.
Qed.

(** X22. In a run of [inference] that ends without exception, with a
    model built for images of 784 pixels on a stream of such images, the
    file number [i * n_examples + example] of the run is tagged with the
    [i]-th requested label and with [example], and its image is the
    decoding of [mu + sigma * epsilon], where [(mu, sigma)] is the entry
    [encodings_digit[label]] and [epsilon] holds the [z_dim] draws that
    follow the [(i * n_examples + example) * z_dim] draws of the files
    before it. *)
Theorem inference_generated (h_dim z_dim : nat) (m : VariationalAutoEncoder)
  (labels : list Z) (folder : string) (dataset : list (vec * Z))
  (n_examples : nat) (w : world) :
  constructed 784 h_dim z_dim m = true ->
  Forall (fun x => length x = 784%nat) (map fst dataset) ->
  fst (inference m labels folder dataset n_examples w) = Ok tt ->
  exists encodings_digit new,
    rmap (encode_exemplar m (scan dataset (length labels) [] 0)) (seq 0 (length labels))
    = Ok encodings_digit
    /\ sink (snd (inference m labels folder dataset n_examples w)) = sink w ++ new
    /\ forall i label example,
         nth_error labels i = Some label -> (example < n_examples)%nat ->
         exists mu sigma img,
           getitem encodings_digit label = Ok (mu, sigma)
           /\ nth_error new (i * n_examples + example)
              = Some {| file_folder := folder; file_label := label;
                        file_example := example; file_image := img |}
           /\ generated m mu sigma (rng w) ((i * n_examples + example) * z_dim) = Ok img.
Proof.
  intros Hm Himg Hok.
  destruct (rmap (encode_exemplar m (scan dataset (length labels) [] 0))
              (seq 0 (length labels))) as [encs|e] eqn:Hencs.
  - pose proof (encodings_shaped h_dim z_dim m _ _ _ Hm
                  (scan_images_784 dataset (length labels) Himg) Hencs) as Hshape.
    destruct (inference m labels folder dataset n_examples w) as [r w'] eqn:E.
    simpl in Hok |- *. subst r. unfold inference in E.
    destruct (labels_generated h_dim z_dim m (length labels) folder dataset n_examples
                encs (rng w) Hencs Hshape labels 0 tt w w' (fun k => eq_refl) E)
      as (new & S & _ & N & _).
    exists encs, new. split; [reflexivity|]. split; [assumption|].
    intros i label example Hi He. exact (N i label example Hi He).
  - exfalso. destruct labels as [|label labels]; [discriminate|].
    unfold inference in Hok.
    rewrite (for_each_raise _ label labels e w w
               (inference_label_raise m _ folder dataset n_examples label e w Hencs))
      in Hok.
    discriminate.
Qed.

Lemma inference_generated_witness :
  exists encodings_digit new,
    rmap (encode_exemplar mnist_model
            (scan [(flat_image 0, 0%Z); (flat_image 1, 1%Z)] (length [0%Z; 1%Z]) [] 0))
         (seq 0 (length [0%Z; 1%Z]))
    = Ok encodings_digit
    /\ sink (snd (inference mnist_model [0%Z; 1%Z] "generated"
                    [(flat_image 0, 0%Z); (flat_image 1, 1%Z)] 3 (still_world 0)))
       = sink (still_world 0) ++ new
    /\ forall i label example,
         nth_error [0%Z; 1%Z] i = Some label -> (example < 3)%nat ->
         exists mu sigma img,
           getitem encodings_digit label = Ok (mu, sigma)
           /\ nth_error new (i * 3 + example)
              = Some {| file_folder := "generated"; file_label := label;
                        file_example := example; file_image := img |}
           /\ generated mnist_model mu sigma (rng (still_world 0))
                ((i * 3 + example) * 1) = Ok img.
Proof.
  apply (inference_generated 1 1 mnist_model [0%Z; 1%Z] "generated"
           [(flat_image 0, 0%Z); (flat_image 1, 1%Z)] 3 (still_world 0));
    [reflexivity | repeat constructor | reflexivity].
Defined.

(** ** Streams put one after the other *)

(** X23. On two streams put one after the other, the scan that has not
    found all its exemplars in the first goes on in the second where it
    stood: it looks there for the label that follows the last one found. *)
Theorem scan_continues {X : Type} : forall (first second : list (X * Z))
  (len_labels idx : nat),
  (idx < len_labels)%nat ->
  (length (scan first len_labels [] idx) < len_labels - idx)%nat ->
  scan (first ++ second) len_labels [] idx
  = scan first len_labels [] idx
    ++ scan second len_labels [] (idx + length (scan first len_labels [] idx)).
Proof.
  induction first as [|[x y] rest IH]; intros second n idx Hi Hl.
  - simpl. now rewrite Nat.add_0_r.
  - rewrite <- app_comm_cons, !scan_cons in *.
    destruct (Z.eqb y (Z.of_nat idx)).
    + destruct (Nat.eqb_spec (S idx) n) as [En|En]; [simpl in Hl; lia|].
      cbn [length] in Hl. rewrite <- app_comm_cons. f_equal.
      rewrite IH by lia. cbn [length]. do 2 f_equal. lia.
    + destruct (Nat.eqb_spec idx n); [lia|]. now apply IH.
Qed.

Lemma scan_continues_witness :
  scan ([(flat_image 1, 1%Z); (flat_image 2, 0%Z)] ++ [(flat_image 3, 1%Z)]) 2 [] 0
  = scan [(flat_image 1, 1%Z); (flat_image 2, 0%Z)] 2 [] 0
    ++ scan [(flat_image 3, 1%Z)] 2 []
         (0 + length (scan [(flat_image 1, 1%Z); (flat_image 2, 0%Z)] 2 [] 0)).
Proof.
  apply (scan_continues [(flat_image 1, 1%Z); (flat_image 2, 0%Z)]
           [(flat_image 3, 1%Z)] 2 0); simpl; lia.
Defined.
